(** * Event betweenness of a temporal network ([dynamics.py])

    A shallow embedding of [eventBetweenness] and the properties of its two
    sweeps.  Python integers are unbounded, so counts and times are [Z];
    the dictionaries [L_count], [A_count] and [nodeBetweenness] are finite
    maps from node identifiers to [Z]; the deque [L_diff] is a list whose
    head is the right end of the deque (the end [append] and [pop] work
    on).

    The development then covers the parts of [netext.py] and [netio.py]
    that stand on their own: the [Enumerator] class, [getPathLengths],
    [getFiletype], the field tests of [loadNodeProperties] and the first
    pass of [loadNet_mat]. *)

From Stdlib Require Import ZArith Lia.
From stdpp Require Import base option list gmap strings.

Local Open Scope Z_scope.

(** ** Exceptions

    The two faults the body of the generator can raise: [pop] on an empty
    deque and subscripting a dictionary with a key it does not hold. *)

Inductive exn : Set :=
  | IndexError
  | KeyError.

Inductive result (A : Type) : Type :=
  | Ok (a : A)
  | Raise (e : exn).

Arguments Ok {A} a.
Arguments Raise {A} e.

#[global] Instance result_ret : MRet result := fun A a => Ok a.

#[global] Instance result_bind : MBind result := fun A B f r =>
  match r with
  | Ok a => f a
  | Raise e => Raise e
  end.

#[global] Instance result_fmap : FMap result := fun A B f r =>
  match r with
  | Ok a => Ok (f a)
  | Raise e => Raise e
  end.

Section Dynamics.

Context {K : Type} `{Countable K}.

(** ** Events *)

(** An event is the tuple [(t, i, j)]. *)
Definition event : Type := Z * K * K.

Definition time (e : event) : Z := e.1.1.
Definition nodeA (e : event) : K := e.1.2.
Definition nodeB (e : event) : K := e.2.

(** ** Dictionary and deque primitives *)

(** [m.setdefault(k, d)]: the value read, and the dictionary afterwards. *)
Definition setdefault (m : gmap K Z) (k : K) (d : Z) : Z * gmap K Z :=
  match m !! k with
  | Some v => (v, m)
  | None => (d, <[k := d]> m)
  end.

(** [m[k]] as an expression. *)
Definition getitem (m : gmap K Z) (k : K) : result Z :=
  match m !! k with
  | Some v => Ok v
  | None => Raise KeyError
  end.

(** [m[k] -= d]. *)
Definition isub (m : gmap K Z) (k : K) (d : Z) : result (gmap K Z) :=
  v ← getitem m k; Ok (<[k := v - d]> m).

(** [d.append(x)] and [d.pop()] of a deque. *)
Definition deque_append (x : Z * Z) (d : list (Z * Z)) : list (Z * Z) := x :: d.

Definition deque_pop (d : list (Z * Z)) : result ((Z * Z) * list (Z * Z)) :=
  match d with
  | [] => Raise IndexError
  | x :: d' => Ok (x, d')
  end.

(** The value a counter dictionary holds for a node, [0] for a node it has
    not seen. *)
Definition count_of (m : gmap K Z) (k : K) : Z := default 0 (m !! k).

(** ** Phase I: the number of leaving paths *)

Definition phase1_step (acc : gmap K Z * list (Z * Z)) (e : event)
  : gmap K Z * list (Z * Z) :=
  let '(L_count, L_diff) := acc in
  let '(t, i, j) := e in
  let '(l_i, L_count) := setdefault L_count i 0 in
  let '(l_j, L_count) := setdefault L_count j 0 in
  let c_new := l_i + l_j + 1 in
  let L_diff := deque_append (c_new - l_i, c_new - l_j) L_diff in
  (<[j := c_new]> (<[i := c_new]> L_count), L_diff).

Definition phase1 (events_reversed : list event) : gmap K Z * list (Z * Z) :=
  fold_left phase1_step events_reversed (∅, []).

(** ** Phase II: event betweenness *)

(** The state the loop of Phase II works on. *)
Record state : Type := State {
  A_count : gmap K Z;
  L_count : gmap K Z;
  L_diff : list (Z * Z);
  nodeBetweenness : option (gmap K Z)
}.

(** The local variables of one iteration, as they stand at its [yield]. *)
Record locals : Type := Locals {
  loc_t : Z;
  loc_i : K;
  loc_j : K;
  a_i : Z;
  a_j : Z;
  l_i : Z;
  l_j : Z
}.

(** What the iteration yields. *)
Definition yielded (f : locals) : Z * Z :=
  (loc_t f,
   a_i f * l_j f + a_j f * l_i f + a_i f + a_j f + l_i f + l_j f).

(** The block under [if nodeBetweenness is not None]. *)
Definition update_nodeBetweenness (include_path_ends : bool) (f : locals)
    (nb : gmap K Z) : gmap K Z :=
  let '(v_i, nb) := setdefault nb (loc_i f) 0 in
  let nb_i := v_i + a_j f * l_i f + l_i f in
  let '(v_j, nb) := setdefault nb (loc_j f) 0 in
  let nb_j := v_j + a_i f * l_j f + l_j f in
  let nb_i := if include_path_ends then nb_i + (a_j f + l_j f) else nb_i in
  let nb_j := if include_path_ends then nb_j + (a_i f + l_i f) else nb_j in
  <[loc_j f := nb_j]> (<[loc_i f := nb_i]> nb).

(** One iteration of the loop over [events]: the locals at the [yield] and
    the state once the iteration has finished. *)
Definition phase2_step (include_path_ends : bool) (st : state) (e : event)
  : result (locals * state) :=
  let '(t, i, j) := e in
  let '(a_i, A) := setdefault (A_count st) i 0 in
  let '(a_j, A) := setdefault A j 0 in
  '(upd, D) ← deque_pop (L_diff st);
  let '(i_update, j_update) := upd in
  L ← isub (L_count st) i i_update;
  L ← isub L j j_update;
  l_i ← getitem L i;
  l_j ← getitem L j;
  let f := Locals t i j a_i a_j l_i l_j in
  let nb := update_nodeBetweenness include_path_ends f <$> nodeBetweenness st in
  let c_new := a_i + a_j + 1 in
  Ok (f, State (<[j := c_new]> (<[i := c_new]> A)) L D nb).

Fixpoint phase2 (include_path_ends : bool) (st : state) (events : list event)
  : result (list locals * state) :=
  match events with
  | [] => Ok ([], st)
  | e :: rest =>
      '(f, st) ← phase2_step include_path_ends st e;
      '(fs, st) ← phase2 include_path_ends st rest;
      Ok (f :: fs, st)
  end.

(** ** The generator *)

(** The state Phase II starts from: the preprocessing and Phase I. *)
Definition initial_state (events : list event)
    (events_reversed : option (list event))
    (nodeBetweenness : option (gmap K Z)) : state :=
  let events_reversed := default (reverse events) events_reversed in
  let '(L_count, L_diff) := phase1 events_reversed in
  State ∅ L_count L_diff nodeBetweenness.

(** The generator run to exhaustion, keeping the locals of every
    iteration. *)
Definition run (events : list event) (events_reversed : option (list event))
    (nodeBetweenness : option (gmap K Z)) (include_path_ends : bool)
  : result (list locals * state) :=
  phase2 include_path_ends
    (initial_state events events_reversed nodeBetweenness) events.

(** The generator stopped after its [n]-th [yield] has been consumed and
    the iteration that produced it has finished. *)
Definition run_upto (n : nat) (events : list event)
    (events_reversed : option (list event))
    (nodeBetweenness : option (gmap K Z)) (include_path_ends : bool)
  : result (list locals * state) :=
  phase2 include_path_ends
    (initial_state events events_reversed nodeBetweenness) (take n events).

(** [eventBetweenness]: the pairs it yields, in order, and the caller's
    [nodeBetweenness] dictionary once the generator is exhausted. *)
Definition eventBetweenness (events : list event)
    (events_reversed : option (list event))
    (nodeBetweenness0 : option (gmap K Z)) (include_path_ends : bool)
  : result (list (Z * Z) * option (gmap K Z)) :=
  '(fs, st) ← run events events_reversed nodeBetweenness0 include_path_ends;
  Ok (yielded <$> (fs : list locals), nodeBetweenness st).

(** ** Input contracts *)

(** [events] sorted by time in increasing order (ties allowed). *)
Fixpoint sorted_by_time (events : list event) : Prop :=
  match events with
  | [] => True
  | e :: rest =>
      match rest with
      | [] => True
      | e' :: _ => time e ≤ time e'
      end ∧ sorted_by_time rest
  end.

(** Every event joins two distinct nodes. *)
Definition distinct_endpoints (events : list event) : Prop :=
  Forall (λ e, nodeA e ≠ nodeB e) events.

(** A valid event sequence: sorted by time, no self-loops. *)
Definition valid_events (events : list event) : Prop :=
  sorted_by_time events ∧ distinct_endpoints events.

(** [events_reversed] is omitted, or goes through [events] in reversed
    order. *)
Definition mirrored (events : list event)
    (events_reversed : option (list event)) : Prop :=
  events_reversed = None ∨ events_reversed = Some (reverse events).

(** The sum of the values a dictionary holds. *)
Definition sum_values (m : gmap K Z) : Z :=
  map_fold (λ _ v acc, v + acc) 0 m.

(** No value of the dictionary is negative. *)
Definition nonneg_values (m : gmap K Z) : Prop :=
  map_Forall (λ _ v, 0 ≤ v) m.

(** Exchanging the two endpoints of an event. *)
Definition swap_endpoints (e : event) : event := (time e, nodeB e, nodeA e).

(** ** Notions used in the statements and their proofs *)

(** The leaving counts after the correction [u] of the event between [i]
    and [j] has been subtracted. *)
Definition corrected (L : gmap K Z) (i j : K) (u : Z * Z) : gmap K Z :=
  let L1 := <[i := count_of L i - u.1]> L in
  <[j := count_of L1 j - u.2]> L1.

(** An iteration's locals belong to its event. *)
Definition locals_of (e : event) (f : locals) : Prop :=
  loc_t f = time e ∧ loc_i f = nodeA e ∧ loc_j f = nodeB e.

(** The assignments to [nodeBetweenness] of a sequence of iterations. *)
Definition update_all (ipe : bool) (fs : list locals) (nb : gmap K Z)
  : gmap K Z :=
  fold_left (λ nb f, update_nodeBetweenness ipe f nb) fs nb.

(** [L] holds the counts of [L0], and an entry wherever [L0] has one. *)
Definition tracks (L L0 : gmap K Z) : Prop :=
  ∀ k, (is_Some (L0 !! k) → is_Some (L !! k)) ∧ count_of L k = count_of L0 k.

(** The four counts an iteration reads are non-negative. *)
Definition nonneg_locals (f : locals) : Prop :=
  0 ≤ a_i f ∧ 0 ≤ a_j f ∧ 0 ≤ l_i f ∧ 0 ≤ l_j f.

(** What an iteration adds to the total of its node [i] and of its node
    [j]. *)
Definition credit_i (ipe : bool) (f : locals) : Z :=
  a_j f * l_i f + l_i f + (if ipe then a_j f + l_j f else 0).

Definition credit_j (ipe : bool) (f : locals) : Z :=
  a_i f * l_j f + l_j f + (if ipe then a_i f + l_i f else 0).

(** [m] and [m'] have the same keys and [m] is nowhere above [m']. *)
Definition below (m m' : gmap K Z) : Prop :=
  ∀ k, (is_Some (m !! k) ↔ is_Some (m' !! k)) ∧ count_of m k ≤ count_of m' k.

(** The sum of a list of integers. *)
Definition sumZ (l : list Z) : Z := foldr Z.add 0 l.

(** The paths an iteration counts that cross its event from one side to
    the other. *)
Definition through_paths (f : locals) : Z := a_i f * l_j f + a_j f * l_i f.

(** The paths an iteration credits to its two nodes when path ends are not
    included: those crossing the event, and those starting with it. *)
Definition arriving_paths (f : locals) : Z :=
  a_i f * l_j f + a_j f * l_i f + l_i f + l_j f.

(** A correction and the locals of an iteration, with the roles of [i] and
    [j] exchanged. *)
Definition swap_pair (u : Z * Z) : Z * Z := (u.2, u.1).

Definition swap_locals (f : locals) : locals :=
  Locals (loc_t f) (loc_j f) (loc_i f) (a_j f) (a_i f) (l_j f) (l_i f).

End Dynamics.

(** ** Further notions about events *)

Section EventNotions.

Context {K : Type} `{Countable K}.

(** The node [k] is an endpoint of some event of the list. *)
Definition mentions (events : list (@event K)) (k : K) : Prop :=
  Exists (λ e, nodeA e = k ∨ nodeB e = k) events.

(** The yield expression, on the arrival counts [A] and the leaving counts
    [L] of the nodes [i] and [j]. *)
Definition betweenness_from (A L : gmap K Z) (i j : K) : Z :=
  count_of A i * count_of L j + count_of A j * count_of L i
  + count_of A i + count_of A j + count_of L i + count_of L j.

End EventNotions.

(** * Item enumeration ([netext.py]) *)

(** [l[n]] on a Python list: a negative index counts from the end, and an
    index out of range raises [IndexError]. *)
Definition list_getitem {A : Type} (l : list A) (n : Z) : result A :=
  let len := Z.of_nat (length l) in
  let n := if n <? 0 then n + len else n in
  if (n <? 0) || (len <=? n) then Raise IndexError
  else match l !! Z.to_nat n with
       | Some x => Ok x
       | None => Raise IndexError
       end.

Module Enumerator.
Section Enumerator.

Context {K : Type} `{Countable K}.

(** The two attributes of an [Enumerator] object. *)
Record t : Type := Make {
  number : gmap K Z;
  item : list K
}.

(** [Enumerator()] *)
Definition __init__ : t := Make ∅ [].

Definition _addItem (self : t) (x : K) : Z * t :=
  let newNumber := Z.of_nat (size (number self)) in
  (newNumber, Make (<[x := newNumber]> (number self)) (item self ++ [x])).

(** [self[x]]: the number of [x], and the object afterwards. *)
Definition __getitem__ (self : t) (x : K) : Z * t :=
  match number self !! x with
  | Some n => (n, self)
  | None => _addItem self x
  end.

Definition getReverse (self : t) (n : Z) : result K :=
  list_getitem (item self) n.

Definition __len__ (self : t) : Z := Z.of_nat (size (number self)).

(** What holds of every object built by [__init__] and [__getitem__]:
    the dictionary and the list have the same length, and the dictionary
    maps an item to the index the list holds it at. *)
Definition consistent (self : t) : Prop :=
  size (number self) = length (item self)
  ∧ ∀ x n, number self !! x = Some n
           ↔ 0 ≤ n ∧ item self !! Z.to_nat n = Some x.

End Enumerator.
End Enumerator.

(** * Path lengths ([netext.py]) *)

Section PathLengths.

Context {K : Type} `{Countable K}.

(** The network class is not among the sources: what iterating over
    [net[node]] and over [net[node].iterOut()] yields is taken as
    given. *)
Record Net : Type := {
  node_iter : K → list K;
  iterOut : K → list K
}.

(** The body of the innermost loop, on the pair of [newEdge] and
    [pathlengths]. *)
Definition visit (interior : gset K) (i : Z) (acc : gset K * gmap K Z)
    (neighbor : K) : gset K * gmap K Z :=
  let '(newEdge, pathlengths) := acc in
  if decide (neighbor ∈ interior) then (newEdge, pathlengths)
  else ({[neighbor]} ∪ newEdge, <[neighbor := i]> pathlengths).

(** The two nested [for] loops of one round. *)
Definition sweep (next : K → list K) (interior : gset K) (i : Z)
    (edge : gset K) (pathlengths : gmap K Z) : gset K * gmap K Z :=
  foldl (λ acc node, foldl (visit interior i) acc (next node))
    (∅, pathlengths) (elements edge).

(** The [while] loop; [None] when the fuel runs out. *)
Fixpoint path_loop (fuel : nat) (next : K → list K) (edge interior : gset K)
    (pathlengths : gmap K Z) (i : Z) : option (gmap K Z) :=
  match fuel with
  | O => None
  | S fuel =>
      if bool_decide (0 < size edge)%nat then
        let i := i + 1 in
        let interior := edge ∪ interior in
        let '(newEdge, pathlengths) :=
          sweep next interior i edge pathlengths in
        path_loop fuel next newEdge interior pathlengths i
      else Some pathlengths
  end.

Definition getPathLengths (fuel : nat) (net : Net) (start : K)
    (undirected : bool) : option (gmap K Z) :=
  if undirected then path_loop fuel (node_iter net) {[start]} ∅ ∅ 0
  else path_loop fuel (iterOut net) {[start]} ∅ ∅ 0.

(** What [getPathLengths] iterates over at a node, for each value of
    [undirected]. *)
Definition next_of (net : Net) (undirected : bool) : K → list K :=
  if undirected then node_iter net else iterOut net.

(** There is a walk of [n] steps from [start] to a node. *)
Inductive walk (next : K → list K) (start : K) : nat → K → Prop :=
  | walk_O : walk next start 0 start
  | walk_S n v w :
      walk next start n v → w ∈ next v → walk next start (S n) w.

(** [n] is the least number of steps from [start] to [v]. *)
Definition distance (next : K → list K) (start : K) (n : nat) (v : K)
  : Prop :=
  walk next start n v ∧ ∀ m, (m < n)%nat → ¬ walk next start m v.

(** The state of the loop after [n] rounds. *)
Definition rounds_done (next : K → list K) (start : K) (n : nat)
    (edge interior : gset K) (pathlengths : gmap K Z) : Prop :=
  (∀ v, v ∈ interior ↔ ∃ m, (m < n)%nat ∧ walk next start m v)
  ∧ (∀ v, v ∈ edge ↔ distance next start n v)
  ∧ (∀ v k, pathlengths !! v = Some k
            ↔ ∃ m, k = Z.of_nat m ∧ (1 ≤ m ≤ n)%nat
                   ∧ distance next start m v)
  ∧ (∀ v, v ∈ interior → v = start ∨ is_Some (pathlengths !! v)).

End PathLengths.

(** * File types and field tests ([netio.py]) *)

(** [string.digits] *)
Definition digits : string := "0123456789".

Section NetIO.

Import Stdlib.Strings.Ascii.

(** [s.split(sep)] for a separator of one character: the pieces of [s]
    between the occurrences of [sep], in order; there is always at least
    one piece. *)
Fixpoint split (sep : Ascii.ascii) (s : string) : list string :=
  match s with
  | EmptyString => [EmptyString]
  | String c rest =>
      if Ascii.eqb c sep then EmptyString :: split sep rest
      else match split sep rest with
           | piece :: pieces => String c piece :: pieces
           | [] => [String c EmptyString]
           end
  end.

(** [fileName.split('.')[-1]] *)
Definition getFiletype (fileName : string) : result string :=
  list_getitem (split "."%char fileName) (-1).

(** The character [c] occurs in the string [s] ([c in s] for a string [c]
    of one character). *)
Fixpoint char_in (c : Ascii.ascii) (s : string) : bool :=
  match s with
  | EmptyString => false
  | String c' rest => Ascii.eqb c c' || char_in c rest
  end.

(** The local functions [isanum] and [isint] of [loadNodeProperties]: the
    loop returns [False] at the first character that is not allowed. *)
Fixpoint isanum (str : string) : bool :=
  match str with
  | EmptyString => true
  | String c rest =>
      if negb (char_in c digits) && negb (Ascii.eqb c "."%char)
         && negb (Ascii.eqb c "-"%char)
      then false
      else isanum rest
  end.

Fixpoint isint (str : string) : bool :=
  match str with
  | EmptyString => true
  | String c rest =>
      if negb (char_in c digits) && negb (Ascii.eqb c "-"%char)
      then false
      else isint rest
  end.

End NetIO.

(** ** The first pass of [loadNet_mat] *)

(** The two exceptions the first pass raises, with the numbers their
    messages carry. *)
Inductive mat_exception : Set :=
  | UnconsistentColumns (row : Z)
  | NotSquare (columns rows : Z).

Section LoadNetMat.

(** [line.split(splitterChar)], whatever [splitterChar] is. *)
Variable fields_of : string → list string.

(** The first [for] loop, from the values [rows] and [columns] have when
    a line is read. *)
Fixpoint loadNet_mat_rows (input : list string) (rows columns : Z)
  : mat_exception + Z * Z :=
  match input with
  | [] => inr (rows, columns)
  | line :: input =>
      let rows := rows + 1 in
      let fields := fields_of line in
      if negb (rows =? 1) && negb (Z.of_nat (length fields) =? columns)
      then inl (UnconsistentColumns rows)
      else loadNet_mat_rows input rows (Z.of_nat (length fields))
  end.

(** The first pass of [loadNet_mat], up to [input.seek(0)]: the number of
    columns the network is then built with, or the exception raised. *)
Definition loadNet_mat_shape (input : list string) : mat_exception + Z :=
  match loadNet_mat_rows input 0 0 with
  | inl e => inl e
  | inr (rows, columns) =>
      if negb (columns =? rows) then inl (NotSquare columns rows)
      else inr columns
  end.

End LoadNetMat.


(** ** A worked example *)

(** Two chained events sharing the node [B]. *)
Definition chain : list (@event string) :=
  [(0, "A", "B"); (1, "B", "C")]%string.

(** Three nodes in a line, [0 - 1 - 2], with the edges directed away from
    [0] for [iterOut]. *)
Definition line_net : @Net nat :=
  {| node_iter := λ v, match v with
                       | 0 => [1]
                       | 1 => [0; 2]
                       | 2 => [1]
                       | _ => []
                       end%nat;
     iterOut := λ v, match v with
                     | 0 => [1]
                     | 1 => [2]
                     | _ => []
                     end%nat |}.

(** * Properties *)

Section Properties.

Context {K : Type} `{Countable K}.

(** ** The dictionary primitives *)

(** Two dictionaries built by assignments are equal when they agree at
    every key. *)
Ltac same_lookups :=
  apply map_eq; intros ?k; rewrite ?lookup_insert;
  repeat case_decide; simplify_eq; try done; f_equal; lia.

Lemma setdefault_eq (m : gmap K Z) k d :
  setdefault m k d = (default d (m !! k), <[k := default d (m !! k)]> m).
Proof.
  unfold setdefault. destruct (m !! k) as [v|] eqn:E; simpl; [|done].
  by rewrite insert_id.
Qed.

Lemma count_of_insert_eq (m : gmap K Z) k v : count_of (<[k := v]> m) k = v.
Proof. unfold count_of. by rewrite lookup_insert_eq. Qed.

Lemma count_of_insert_ne (m : gmap K Z) k k' v :
  k ≠ k' → count_of (<[k := v]> m) k' = count_of m k'.
Proof. intros. unfold count_of. by rewrite lookup_insert_ne. Qed.

Lemma count_of_Some (m : gmap K Z) k v : m !! k = Some v → count_of m k = v.
Proof. unfold count_of. by intros ->. Qed.

Lemma lookup_count_of (m : gmap K Z) k :
  is_Some (m !! k) → m !! k = Some (count_of m k).
Proof. intros [v Hv]. by rewrite (count_of_Some _ _ _ Hv). Qed.

Lemma count_of_nonneg (m : gmap K Z) k : nonneg_values m → 0 ≤ count_of m k.
Proof.
  intros Hm. unfold count_of. destruct (m !! k) as [v|] eqn:E; simpl; [|done].
  exact (Hm _ _ E).
Qed.

Lemma nonneg_values_insert (m : gmap K Z) k v :
  0 ≤ v → nonneg_values m → nonneg_values (<[k := v]> m).
Proof. intros. by apply map_Forall_insert_2. Qed.

Lemma getitem_eq (m : gmap K Z) k :
  is_Some (m !! k) → getitem m k = Ok (count_of m k).
Proof. intros [v Hv]. unfold getitem, count_of. by rewrite Hv. Qed.

Lemma isub_eq (m : gmap K Z) k d :
  is_Some (m !! k) → isub m k d = Ok (<[k := count_of m k - d]> m).
Proof. intros Hk. unfold isub. by rewrite getitem_eq. Qed.

(** ** The two steps as equations *)

Lemma phase1_step_eq (L : gmap K Z) D t i j :
  let c := count_of L i + count_of L j + 1 in
  phase1_step (L, D) (t, i, j)
  = (<[j := c]> (<[i := c]> L), (c - count_of L i, c - count_of L j) :: D).
Proof.
  simpl. rewrite !setdefault_eq. fold (count_of L i).
  assert (default 0 (<[i := count_of L i]> L !! j) = count_of L j) as ->.
  { destruct (decide (i = j)) as [->|Hne].
    - by rewrite lookup_insert_eq.
    - by rewrite lookup_insert_ne. }
  unfold deque_append. f_equal.
  same_lookups.
Qed.

Lemma phase2_step_eq ipe (A L : gmap K Z) u D nb t i j :
  is_Some (L !! i) → is_Some (L !! j) →
  let c := count_of A i + count_of A j + 1 in
  let L' := corrected L i j u in
  let f := Locals t i j (count_of A i) (count_of A j)
             (count_of L' i) (count_of L' j) in
  phase2_step ipe (State A L (u :: D) nb) (t, i, j)
  = Ok (f, State (<[j := c]> (<[i := c]> A)) L' D
             (update_nodeBetweenness ipe f <$> nb)).
Proof.
  intros Hi Hj. destruct u as [u_i u_j]. simpl.
  rewrite !setdefault_eq. fold (count_of A i).
  assert (default 0 (<[i := count_of A i]> A !! j) = count_of A j) as ->.
  { destruct (decide (i = j)) as [->|Hne].
    - by rewrite lookup_insert_eq.
    - by rewrite lookup_insert_ne. }
  rewrite (isub_eq L i) by done. simpl.
  assert (is_Some (<[i := count_of L i - u_i]> L !! j)) as Hj'.
  { rewrite lookup_insert. case_decide; eauto. }
  rewrite (isub_eq _ j) by done. simpl.
  unfold corrected; simpl.
  set (L2 := <[j := _]> (<[i := count_of L i - u_i]> L)).
  assert (is_Some (L2 !! i) ∧ is_Some (L2 !! j)) as [Hi2 Hj2].
  { subst L2. rewrite !lookup_insert.
    split; repeat case_decide; simplify_eq; eauto. }
  rewrite (getitem_eq L2 i), (getitem_eq L2 j) by done. simpl.
  do 3 f_equal.
  same_lookups.
Qed.

Lemma corrected_is_Some (L : gmap K Z) i j u k :
  is_Some (L !! k) → is_Some (corrected L i j u !! k).
Proof.
  intros Hk. unfold corrected; simpl. rewrite !lookup_insert.
  repeat case_decide; simplify_eq; eauto.
Qed.

Lemma phase2_step_Ok_inv ipe st t (i j : K) r :
  phase2_step ipe st (t, i, j) = Ok r →
  ∃ u D, L_diff st = u :: D
         ∧ is_Some (L_count st !! i) ∧ is_Some (L_count st !! j).
Proof.
  unfold phase2_step, isub, getitem. rewrite !setdefault_eq.
  destruct (L_diff st) as [|[u_i u_j] D]; simpl; [done|].
  destruct (L_count st !! i) as [x|] eqn:Ei; simpl; [|done].
  destruct (decide (i = j)) as [<-|Hij].
  - intros _. exists (u_i, u_j), D. repeat split; eauto.
  - rewrite (lookup_insert_ne (L_count st)) by done.
    destruct (L_count st !! j) as [y|] eqn:Ej; simpl; [|done].
    intros _. exists (u_i, u_j), D. repeat split; eauto.
Qed.

#[local] Arguments phase1_step : simpl never.
#[local] Arguments phase2_step : simpl never.

(** What one iteration reads and what it leaves behind, whenever it
    finishes. *)
Lemma phase2_step_Ok ipe st t (i j : K) f st' :
  phase2_step ipe st (t, i, j) = Ok (f, st') →
  ∃ u,
    L_diff st = u :: L_diff st'
    ∧ is_Some (L_count st !! i) ∧ is_Some (L_count st !! j)
    ∧ L_count st' = corrected (L_count st) i j u
    ∧ f = Locals t i j (count_of (A_count st) i) (count_of (A_count st) j)
            (count_of (L_count st') i) (count_of (L_count st') j)
    ∧ A_count st'
      = <[j := a_i f + a_j f + 1]> (<[i := a_i f + a_j f + 1]> (A_count st))
    ∧ nodeBetweenness st'
      = update_nodeBetweenness ipe f <$> nodeBetweenness st.
Proof.
  intros Hstep.
  destruct (phase2_step_Ok_inv _ _ _ _ _ _ Hstep) as (u & D & HD & Hi & Hj).
  destruct st as [A L D0 nb]; simpl in *; subst D0.
  rewrite phase2_step_eq in Hstep by done. simplify_eq; simpl.
  exists u. done.
Qed.

(** ** Phase I *)

Lemma phase1_cons (e : @event K) rest :
  phase1 (reverse (e :: rest)) = phase1_step (phase1 (reverse rest)) e.
Proof. unfold phase1. by rewrite reverse_cons, fold_left_app. Qed.

(** One correction per event is pushed. *)
Lemma phase1_length (evs : list (@event K)) :
  length (phase1 (reverse evs)).2 = length evs.
Proof.
  induction evs as [|[[t i] j] rest IH]; [done|].
  rewrite phase1_cons. destruct (phase1 (reverse rest)) as [L D].
  rewrite phase1_step_eq. simpl in *. by rewrite IH.
Qed.

(** Every node of an event has an entry in [L_count]. *)
Lemma phase1_covers (evs : list (@event K)) :
  Forall (λ e, is_Some ((phase1 (reverse evs)).1 !! nodeA e)
               ∧ is_Some ((phase1 (reverse evs)).1 !! nodeB e)) evs.
Proof.
  induction evs as [|[[t i] j] rest IH]; [done|].
  rewrite phase1_cons. destruct (phase1 (reverse rest)) as [L D].
  rewrite phase1_step_eq. simpl in *. constructor.
  - unfold nodeA, nodeB; simpl. rewrite !lookup_insert.
    split; repeat case_decide; simplify_eq; eauto.
  - eapply Forall_impl; [exact IH|]. intros e [Ha Hb]. simpl in *.
    rewrite !lookup_insert. split; repeat case_decide; simplify_eq; eauto.
Qed.

(** Leaving counts are never negative. *)
Lemma phase1_nonneg (evs : list (@event K)) :
  nonneg_values (phase1 (reverse evs)).1.
Proof.
  induction evs as [|[[t i] j] rest IH]; [apply map_Forall_empty|].
  rewrite phase1_cons. destruct (phase1 (reverse rest)) as [L D].
  rewrite phase1_step_eq. simpl in *.
  pose proof (count_of_nonneg L i IH). pose proof (count_of_nonneg L j IH).
  apply nonneg_values_insert; [lia|]. apply nonneg_values_insert; [lia|done].
Qed.

(** ** Phase II over a list of events *)

Lemma phase2_app ipe (evs1 evs2 : list (@event K)) st :
  phase2 ipe st (evs1 ++ evs2)
  = '(fs1, st1) ← phase2 ipe st evs1;
    '(fs2, st2) ← phase2 ipe st1 evs2;
    Ok (fs1 ++ fs2, st2).
Proof.
  revert st. induction evs1 as [|e rest IH]; intros st; simpl.
  - by destruct (phase2 ipe st evs2) as [[fs2 st2]|].
  - destruct (phase2_step ipe st e) as [[f st1]|]; simpl; [|done].
    rewrite IH. destruct (phase2 ipe st1 rest) as [[fs1 st2]|]; simpl; [|done].
    by destruct (phase2 ipe st2 evs2) as [[fs2 st3]|].
Qed.

Lemma phase2_locals_of ipe (evs : list (@event K)) : ∀ st fs st',
  phase2 ipe st evs = Ok (fs, st') → Forall2 locals_of evs fs.
Proof.
  induction evs as [|[[t i] j] rest IH]; intros st fs st' Hrun; simpl in *.
  - simplify_eq. constructor.
  - destruct (phase2_step ipe st (t, i, j)) as [[f st1]|] eqn:Hstep;
      simpl in *; [|done].
    destruct (phase2 ipe st1 rest) as [[fs1 st2]|] eqn:Hrest;
      simpl in *; [|done].
    simplify_eq.
    destruct (phase2_step_Ok _ _ _ _ _ _ _ Hstep)
      as (u & _ & _ & _ & _ & -> & _).
    constructor; [done|eauto].
Qed.

(** With one correction per event on the deque and every node known to
    [L_count], no iteration raises. *)
Lemma phase2_no_fault ipe (evs : list (@event K)) : ∀ st,
  (length evs ≤ length (L_diff st))%nat →
  Forall (λ e, is_Some (L_count st !! nodeA e)
               ∧ is_Some (L_count st !! nodeB e)) evs →
  ∃ fs st', phase2 ipe st evs = Ok (fs, st').
Proof.
  induction evs as [|[[t i] j] rest IH]; intros [A L D nb] Hlen Hcov;
    simpl in *; [eauto|].
  destruct D as [|u D]; simpl in *; [lia|].
  apply Forall_cons in Hcov as [[Hi Hj] Hcov]. unfold nodeA, nodeB in *.
  simpl in *. rewrite phase2_step_eq by done. simpl.
  edestruct (IH (State (<[j := count_of A i + count_of A j + 1]>
                         (<[i := count_of A i + count_of A j + 1]> A))
                       (corrected L i j u) D
                       (update_nodeBetweenness ipe
                          (Locals t i j (count_of A i) (count_of A j)
                             (count_of (corrected L i j u) i)
                             (count_of (corrected L i j u) j)) <$> nb)))
    as (fs & st' & Hrun).
  - simpl. lia.
  - simpl. eapply Forall_impl; [exact Hcov|].
    intros e [Ha Hb]. split; by apply corrected_is_Some.
  - rewrite Hrun. simpl. eauto.
Qed.

(** The locals of a run, and everything in its state but
    [nodeBetweenness], do not depend on [nodeBetweenness] nor on
    [include_path_ends]; the dictionary receives the updates of the
    iterations in turn. *)
Lemma phase2_nodeBetweenness ipe (evs : list (@event K)) : ∀ A L D nb fs st',
  phase2 ipe (State A L D nb) evs = Ok (fs, st') →
  ∀ ipe' nb',
    phase2 ipe' (State A L D nb') evs
    = Ok (fs, State (A_count st') (L_count st') (L_diff st')
                (update_all ipe' fs <$> nb')).
Proof.
  induction evs as [|[[t i] j] rest IH]; intros A L D nb fs st' Hrun ipe' nb';
    simpl in *.
  - simplify_eq. simpl. by destruct nb'.
  - destruct (phase2_step ipe (State A L D nb) (t, i, j)) as [[f st1]|]
      eqn:Hstep; simpl in *; [|done].
    destruct (phase2 ipe st1 rest) as [[fs1 st2]|] eqn:Hrest;
      simpl in *; [|done].
    simplify_eq.
    destruct (phase2_step_Ok_inv _ _ _ _ _ _ Hstep) as (u & D' & HD & Hi & Hj).
    simpl in *; subst D.
    rewrite phase2_step_eq in Hstep by done.
    rewrite phase2_step_eq by done. simplify_eq. simpl.
    erewrite IH by exact Hrest. simpl. by destruct nb'.
Qed.

(** ** Phase II undoes Phase I *)

Lemma tracks_refl (L : gmap K Z) : tracks L L.
Proof. by intros k. Qed.

(** Subtracting the correction of an event between two distinct nodes
    takes the leaving counts back to what they were before Phase I met
    the event. *)
Lemma corrected_undo (L L0 : gmap K Z) i j :
  i ≠ j →
  let c := count_of L0 i + count_of L0 j + 1 in
  tracks L (<[j := c]> (<[i := c]> L0)) →
  tracks (corrected L i j (c - count_of L0 i, c - count_of L0 j)) L0.
Proof.
  intros Hij c HL k. unfold corrected; simpl.
  pose proof (HL i) as [_ Hi]. pose proof (HL j) as [_ Hj].
  rewrite count_of_insert_ne, count_of_insert_eq in Hi by done.
  rewrite count_of_insert_eq in Hj.
  rewrite (count_of_insert_ne _ i j) by done. rewrite Hi, Hj.
  destruct (HL k) as [Hdom Hk]. unfold count_of in *.
  revert Hdom Hk. rewrite !lookup_insert.
  repeat case_decide; simplify_eq; simpl; intros Hdom Hk.
  - split; [eauto|]. lia.
  - split; [eauto|]. lia.
  - done.
Qed.

(** On a prefix [pre] of events with distinct endpoints, started on the
    outcome of Phase I for [pre ++ rest], Phase II raises nothing, every
    count an iteration reads is non-negative, and it arrives at the
    outcome of Phase I for [rest]. *)
Lemma phase2_undo_prefix ipe (pre rest : list (@event K)) :
  distinct_endpoints pre →
  ∀ A L nb,
    tracks L (phase1 (reverse (pre ++ rest))).1 → nonneg_values A →
    ∃ fs st',
      phase2 ipe (State A L (phase1 (reverse (pre ++ rest))).2 nb) pre
      = Ok (fs, st')
      ∧ Forall nonneg_locals fs
      ∧ tracks (L_count st') (phase1 (reverse rest)).1
      ∧ L_diff st' = (phase1 (reverse rest)).2
      ∧ nonneg_values (A_count st').
Proof.
  induction pre as [|[[t i] j] pre IH]; intros Hdist A L nb HL HA; simpl in *.
  { eexists _, _. split; [done|]. split; [constructor|]. simpl. auto. }
  apply Forall_cons in Hdist as [Hij Hdist]. unfold nodeA, nodeB in Hij.
  simpl in Hij. specialize (IH Hdist).
  revert HL. rewrite phase1_cons.
  pose proof (phase1_nonneg (pre ++ rest)) as Hnn.
  destruct (phase1 (reverse (pre ++ rest))) as [L0 D0]. rewrite phase1_step_eq.
  simpl in *. intros HL.
  assert (is_Some (L !! i) ∧ is_Some (L !! j)) as [Hi Hj].
  { split; [apply (HL i)|apply (HL j)]; rewrite !lookup_insert;
      repeat case_decide; simplify_eq; eauto. }
  rewrite phase2_step_eq by done. simpl.
  pose proof (corrected_undo L L0 i j Hij HL) as HL'. simpl in HL'.
  set (L' := corrected L i j _) in *.
  set (c := count_of A i + count_of A j + 1).
  pose proof (count_of_nonneg A i HA). pose proof (count_of_nonneg A j HA).
  edestruct (IH (<[j := c]> (<[i := c]> A)) L')
    as (fs & st' & Hrun & Hfs & Hrest).
  { exact HL'. }
  { apply nonneg_values_insert; [lia|].
    apply nonneg_values_insert; [lia|done]. }
  rewrite Hrun. simpl. eexists _, _. split; [done|]. split; [|done].
  constructor; [|done]. red; simpl.
  destruct (HL' i) as [_ ->]. destruct (HL' j) as [_ ->].
  pose proof (count_of_nonneg L0 i Hnn). pose proof (count_of_nonneg L0 j Hnn).
  done.
Qed.

Lemma phase2_undo ipe (evs : list (@event K)) :
  distinct_endpoints evs →
  ∀ A L nb,
    tracks L (phase1 (reverse evs)).1 → nonneg_values A →
    ∃ fs st',
      phase2 ipe (State A L (phase1 (reverse evs)).2 nb) evs = Ok (fs, st')
      ∧ Forall nonneg_locals fs.
Proof.
  intros Hdist A L nb HL HA.
  destruct (phase2_undo_prefix ipe evs [] Hdist A L nb)
    as (fs & st' & Hrun & Hfs & _); rewrite ?app_nil_r in *; eauto.
Qed.

(** ** Assignments to [nodeBetweenness] *)

Lemma update_nodeBetweenness_eq ipe f (nb : gmap K Z) :
  update_nodeBetweenness ipe f nb
  = <[loc_j f := count_of nb (loc_j f) + credit_j ipe f]>
      (<[loc_i f := count_of nb (loc_i f) + credit_i ipe f]> nb).
Proof.
  unfold update_nodeBetweenness, credit_i, credit_j.
  rewrite !setdefault_eq. fold (count_of nb (loc_i f)).
  assert (default 0 (<[loc_i f := count_of nb (loc_i f)]> nb !! loc_j f)
          = count_of nb (loc_j f)) as ->.
  { destruct (decide (loc_i f = loc_j f)) as [->|Hne].
    - by rewrite lookup_insert_eq.
    - by rewrite lookup_insert_ne. }
  destruct ipe; same_lookups.
Qed.

Lemma update_nodeBetweenness_nonneg ipe f (nb : gmap K Z) :
  nonneg_locals f → nonneg_values nb →
  nonneg_values (update_nodeBetweenness ipe f nb).
Proof.
  intros (Hai & Haj & Hli & Hlj) Hnb. rewrite update_nodeBetweenness_eq.
  pose proof (count_of_nonneg nb (loc_i f) Hnb).
  pose proof (count_of_nonneg nb (loc_j f) Hnb).
  unfold credit_i, credit_j.
  apply nonneg_values_insert; [destruct ipe; nia|].
  apply nonneg_values_insert; [destruct ipe; nia|done].
Qed.

Lemma update_all_nonneg ipe (fs : list (@locals K)) : ∀ nb,
  Forall nonneg_locals fs → nonneg_values nb →
  nonneg_values (update_all ipe fs nb).
Proof.
  induction fs as [|f fs IH]; intros nb Hfs Hnb; simpl; [done|].
  apply Forall_cons in Hfs as [Hf Hfs].
  apply IH; [done|]. by apply update_nodeBetweenness_nonneg.
Qed.

Lemma update_nodeBetweenness_below f (m m' : gmap K Z) :
  nonneg_locals f → below m m' →
  below (update_nodeBetweenness false f m) (update_nodeBetweenness true f m').
Proof.
  intros (Hai & Haj & Hli & Hlj) Hm k. rewrite !update_nodeBetweenness_eq.
  destruct (Hm (loc_i f)) as [_ Hi]. destruct (Hm (loc_j f)) as [_ Hj].
  destruct (Hm k) as [Hdom Hk]. unfold credit_i, credit_j.
  destruct (decide (loc_j f = k)) as [<-|Hjk].
  { rewrite !lookup_insert_eq, !count_of_insert_eq.
    split; [split; eauto|lia]. }
  rewrite !(lookup_insert_ne _ (loc_j f)) by done.
  rewrite !(count_of_insert_ne _ (loc_j f)) by done.
  destruct (decide (loc_i f = k)) as [<-|Hik].
  { rewrite !lookup_insert_eq, !count_of_insert_eq.
    split; [split; eauto|lia]. }
  rewrite !(lookup_insert_ne _ (loc_i f)) by done.
  by rewrite !(count_of_insert_ne _ (loc_i f)) by done.
Qed.

Lemma update_all_below (fs : list (@locals K)) : ∀ m m',
  Forall nonneg_locals fs → below m m' →
  below (update_all false fs m) (update_all true fs m').
Proof.
  induction fs as [|f fs IH]; intros m m' Hfs Hm; simpl; [done|].
  apply Forall_cons in Hfs as [Hf Hfs].
  apply IH; [done|]. by apply update_nodeBetweenness_below.
Qed.

(** The sum of the values after an assignment [m[k] = v]. *)
Lemma sum_values_insert (m : gmap K Z) k v :
  sum_values (<[k := v]> m) = sum_values m - count_of m k + v.
Proof.
  unfold sum_values, count_of.
  destruct (m !! k) as [x|] eqn:E; simpl.
  - rewrite <- insert_delete_eq.
    rewrite map_fold_insert_L; [|intros; lia|apply lookup_delete_eq].
    rewrite (map_fold_delete_L _ _ k x m); [lia|intros; lia|done].
  - rewrite map_fold_insert_L; [lia|intros; lia|done].
Qed.

Lemma sum_values_empty : sum_values (∅ : gmap K Z) = 0.
Proof. apply map_fold_empty. Qed.

Lemma sum_values_update ipe f (nb : gmap K Z) :
  loc_i f ≠ loc_j f →
  sum_values (update_nodeBetweenness ipe f nb)
  = sum_values nb + (credit_i ipe f + credit_j ipe f).
Proof.
  intros Hij. rewrite update_nodeBetweenness_eq, !sum_values_insert.
  rewrite count_of_insert_ne by done. lia.
Qed.

Lemma sumZ_cons x l : sumZ (x :: l) = x + sumZ l.
Proof. done. Qed.

Lemma sum_values_update_all (fs : list (@locals K)) : ∀ nb,
  Forall (λ f, loc_i f ≠ loc_j f) fs →
  sum_values (update_all false fs nb)
  = sum_values nb + sumZ (arriving_paths <$> fs).
Proof.
  induction fs as [|f fs IH]; intros nb Hfs; [simpl; lia|].
  apply Forall_cons in Hfs as [Hf Hfs].
  change (update_all false (f :: fs) nb)
    with (update_all false fs (update_nodeBetweenness false f nb)).
  rewrite fmap_cons, sumZ_cons, IH, sum_values_update by done.
  unfold credit_i, credit_j, arriving_paths. lia.
Qed.

(** ** Exchanging the endpoints of every event *)

Lemma yielded_swap (f : @locals K) : yielded (swap_locals f) = yielded f.
Proof. unfold yielded; simpl. f_equal. lia. Qed.

Lemma corrected_swap (L : gmap K Z) i j u :
  corrected L j i (swap_pair u) = corrected L i j u.
Proof.
  unfold corrected; simpl. destruct (decide (i = j)) as [->|Hij].
  - rewrite !count_of_insert_eq. same_lookups.
  - rewrite !count_of_insert_ne by done. same_lookups.
Qed.

Lemma phase1_swap (evs : list (@event K)) :
  phase1 (reverse (swap_endpoints <$> evs))
  = ((phase1 (reverse evs)).1, swap_pair <$> (phase1 (reverse evs)).2).
Proof.
  induction evs as [|[[t i] j] rest IH]; [done|].
  rewrite fmap_cons, !phase1_cons, IH.
  destruct (phase1 (reverse rest)) as [L D].
  change (swap_endpoints (t, i, j)) with (t, j, i). cbn [fst snd].
  rewrite !phase1_step_eq. cbn [fst snd]. rewrite fmap_cons.
  unfold swap_pair at 1; cbn [fst snd].
  rewrite (Z.add_comm (count_of L j) (count_of L i)). f_equal.
  same_lookups.
Qed.

Lemma update_nodeBetweenness_swap ipe f (nb : gmap K Z) :
  (loc_i f = loc_j f → a_i f = a_j f ∧ l_i f = l_j f) →
  update_nodeBetweenness ipe (swap_locals f) nb
  = update_nodeBetweenness ipe f nb.
Proof.
  intros Hsame. rewrite !update_nodeBetweenness_eq.
  unfold credit_i, credit_j; simpl.
  destruct (decide (loc_i f = loc_j f)) as [Heq|Hne].
  - destruct (Hsame Heq) as [-> ->]. rewrite Heq. done.
  - same_lookups.
Qed.

(** A run on the exchanged events, with the corrections exchanged too,
    goes through the same states and reads the same counts. *)
Lemma phase2_swap ipe (evs : list (@event K)) : ∀ A L D nb fs st',
  phase2 ipe (State A L D nb) evs = Ok (fs, st') →
  phase2 ipe (State A L (swap_pair <$> D) nb) (swap_endpoints <$> evs)
  = Ok (swap_locals <$> fs,
        State (A_count st') (L_count st') (swap_pair <$> L_diff st')
          (nodeBetweenness st')).
Proof.
  induction evs as [|[[t i] j] rest IH]; intros A L D nb fs st' Hrun.
  { simpl in *. by simplify_eq. }
  rewrite fmap_cons. cbn [phase2] in *.
  destruct (phase2_step ipe (State A L D nb) (t, i, j)) as [[f st1]|]
    eqn:Hstep; [|done].
  cbn [mbind result_bind] in Hrun.
  destruct (phase2 ipe st1 rest) as [[fs1 st2]|] eqn:Hrest; [|done].
  cbn [mbind result_bind] in Hrun. simplify_eq.
  destruct (phase2_step_Ok_inv _ _ _ _ _ _ Hstep) as (u & D' & HD & Hi & Hj).
  cbn [L_diff L_count] in *; subst D.
  rewrite phase2_step_eq in Hstep by done. simplify_eq.
  change (swap_endpoints (t, i, j)) with (t, j, i).
  rewrite fmap_cons, phase2_step_eq by done. cbn zeta.
  rewrite corrected_swap.
  rewrite (Z.add_comm (count_of A j) (count_of A i)).
  set (c := count_of A i + count_of A j + 1) in *.
  set (L' := corrected L i j u) in *.
  assert (<[i := c]> (<[j := c]> A) = <[j := c]> (<[i := c]> A)) as ->
    by same_lookups.
  set (f := Locals t i j _ _ _ _) in *.
  change (Locals t j i _ _ _ _) with (swap_locals f).
  assert (update_nodeBetweenness ipe (swap_locals f) <$> nb
          = update_nodeBetweenness ipe f <$> nb) as ->.
  { destruct nb as [m|]; [|done]. simpl. f_equal.
    apply update_nodeBetweenness_swap. subst f; simpl. by intros ->. }
  cbn [mbind result_bind].
  erewrite IH by exact Hrest. done.
Qed.

(** ** The generator as a whole *)

Lemma initial_state_mirrored (events : list (@event K)) er nb :
  mirrored events er →
  initial_state events er nb
  = State ∅ (phase1 (reverse events)).1 (phase1 (reverse events)).2 nb.
Proof.
  intros [->| ->]; unfold initial_state; simpl;
    by destruct (phase1 (reverse events)).
Qed.

Lemma run_no_fault (events : list (@event K)) er nb ipe :
  mirrored events er →
  ∃ fs st', run events er nb ipe = Ok (fs, st') ∧ Forall2 locals_of events fs.
Proof.
  intros Hm. unfold run. rewrite initial_state_mirrored by done.
  edestruct (phase2_no_fault ipe events) as (fs & st' & Hrun); [| |].
  3: { exists fs, st'. split; [exact Hrun|].
       eapply phase2_locals_of, Hrun. }
  - simpl. by rewrite phase1_length.
  - simpl. apply phase1_covers.
Qed.

Lemma run_nonneg (events : list (@event K)) er nb ipe :
  mirrored events er → distinct_endpoints events →
  ∃ fs st',
    run events er nb ipe = Ok (fs, st')
    ∧ Forall2 locals_of events fs ∧ Forall nonneg_locals fs.
Proof.
  intros Hm Hdist. unfold run. rewrite initial_state_mirrored by done.
  destruct (phase2_undo ipe events Hdist ∅ (phase1 (reverse events)).1 nb)
    as (fs & st' & Hrun & Hfs).
  - apply tracks_refl.
  - apply map_Forall_empty.
  - exists fs, st'. split; [done|]. split; [|done].
    eapply phase2_locals_of, Hrun.
Qed.

Lemma initial_state_nodeBetweenness (events : list (@event K)) er nb :
  nodeBetweenness (initial_state events er nb) = nb.
Proof. unfold initial_state. by destruct (phase1 _). Qed.

Lemma eventBetweenness_run (events : list (@event K)) er nb ipe fs st :
  run events er nb ipe = Ok (fs, st) →
  eventBetweenness events er nb ipe = Ok (yielded <$> fs, nodeBetweenness st).
Proof. unfold eventBetweenness. by intros ->. Qed.

Lemma yielded_times (evs : list (@event K)) fs :
  Forall2 locals_of evs fs → (yielded <$> fs).*1 = time <$> evs.
Proof.
  induction 1 as [|e f evs fs (Ht & _ & _) _ IH]; [done|].
  rewrite !fmap_cons, IH. by rewrite <- Ht.
Qed.

Lemma eventBetweenness_no_fault (events : list (@event K)) er nb ipe :
  mirrored events er →
  ∃ out nb',
    eventBetweenness events er nb ipe = Ok (out, nb')
    ∧ length out = length events
    ∧ out.*1 = time <$> events.
Proof.
  intros Hm.
  destruct (run_no_fault events er nb ipe Hm) as (fs & st & Hrun & Hfs).
  exists (yielded <$> fs), (nodeBetweenness st).
  split; [by apply eventBetweenness_run|]. split.
  - rewrite length_fmap. symmetry. by eapply Forall2_length.
  - by apply yielded_times.
Qed.

(** The locals of a run do not depend on the dictionary supplied nor on
    [include_path_ends]; the dictionary ends up with the updates of all
    iterations. *)
Lemma run_nodeBetweenness (events : list (@event K)) er nb ipe fs st :
  run events er nb ipe = Ok (fs, st) →
  ∀ ipe' nb', ∃ st',
    run events er nb' ipe' = Ok (fs, st')
    ∧ nodeBetweenness st' = update_all ipe' fs <$> nb'.
Proof.
  unfold run, initial_state. destruct (phase1 _) as [L D].
  intros Hrun ipe' nb'.
  exists (State (A_count st) (L_count st) (L_diff st)
            (update_all ipe' fs <$> nb')).
  split; [|done]. by eapply phase2_nodeBetweenness.
Qed.

(** The generator stopped after [n] iterations has gone through a prefix
    of the full run. *)
Lemma run_upto_prefix n (events : list (@event K)) er nb ipe fs st :
  run events er nb ipe = Ok (fs, st) →
  ∃ fs_n fs_rest st_n,
    run_upto n events er nb ipe = Ok (fs_n, st_n)
    ∧ fs = fs_n ++ fs_rest
    ∧ length fs_n = length (take n events)
    ∧ phase2 ipe st_n (drop n events) = Ok (fs_rest, st)
    ∧ nodeBetweenness st_n = update_all ipe fs_n <$> nb.
Proof.
  unfold run, run_upto. unfold initial_state.
  destruct (phase1 _) as [L D]. set (st0 := State ∅ L D nb).
  rewrite <- (take_drop n events) at 1. rewrite phase2_app.
  destruct (phase2 ipe st0 (take n events)) as [[fs1 st1]|] eqn:H1; [|done].
  cbn [mbind result_bind].
  destruct (phase2 ipe st1 (drop n events)) as [[fs2 st2]|] eqn:H2; [|done].
  cbn [mbind result_bind]. intros [= <- <-].
  exists fs1, fs2, st1. split; [done|]. split; [done|].
  split; [|split; [done|]].
  - symmetry. eapply Forall2_length, phase2_locals_of, H1.
  - subst st0.
    pose proof (phase2_nodeBetweenness _ _ _ _ _ _ _ _ H1 ipe nb) as H1'.
    rewrite H1 in H1'. injection H1' as Hst. by rewrite Hst.
Qed.

(** * Properties of the generator *)

(** C7. With [events_reversed] omitted or the mirror of [events], the
    generator yields one pair per event, in the order of the events, and
    the first component of each pair is the time of its event; repeated
    events are no exception. *)
Theorem order_preservation (events : list (@event K)) er nb ipe :
  mirrored events er →
  ∃ out nb',
    eventBetweenness events er nb ipe = Ok (out, nb')
    ∧ length out = length events
    ∧ out.*1 = time <$> events
    ∧ ∀ k e, events !! k = Some e → ∃ b, out !! k = Some (time e, b).
Proof.
  intros Hm.
  destruct (eventBetweenness_no_fault events er nb ipe Hm)
    as (out & nb' & Hrun & Hlen & Htimes).
  exists out, nb'. repeat split; [done..|].
  intros k e Hk.
  assert (out.*1 !! k = Some (time e)) as Hk'.
  { by rewrite Htimes, list_lookup_fmap, Hk. }
  rewrite list_lookup_fmap in Hk'.
  destruct (out !! k) as [[t b]|]; simpl in Hk'; simplify_eq. by exists b.
Qed.

(** C9. With [events_reversed] omitted, whatever the events are (sorted or
    not, with or without self-loops), the generator raises nothing: it
    runs to exhaustion and yields one pair per event. *)
Theorem no_fault (events : list (@event K)) nb ipe :
  ∃ out nb',
    eventBetweenness events None nb ipe = Ok (out, nb')
    ∧ length out = length events
    ∧ out.*1 = time <$> events.
Proof. apply eventBetweenness_no_fault. by left. Qed.

(** C3. On events sorted by time with distinct endpoints, and
    [events_reversed] omitted or the mirror of [events], the value yielded
    for the [k]-th event [(t, i, j)] is
    [a_i*l_j + a_j*l_i + a_i + a_j + l_i + l_j], where [a_i] and [a_j] are
    the arrival counts of [i] and [j] in the state reached just before the
    event is processed, and [l_i] and [l_j] are the leaving counts of [i]
    and [j] once the correction popped for the event has been
    subtracted. *)
Theorem emitted_formula (events : list (@event K)) er nb ipe k t i j :
  valid_events events → mirrored events er →
  events !! k = Some (t, i, j) →
  ∃ fs st f st1 u out nb',
    run_upto k events er nb ipe = Ok (fs, st)
    ∧ phase2_step ipe st (t, i, j) = Ok (f, st1)
    ∧ L_diff st = u :: L_diff st1
    ∧ L_count st1 = corrected (L_count st) i j u
    ∧ eventBetweenness events er nb ipe = Ok (out, nb')
    ∧ let ai := count_of (A_count st) i in
      let aj := count_of (A_count st) j in
      let li := count_of (L_count st1) i in
      let lj := count_of (L_count st1) j in
      out !! k = Some (t, ai * lj + aj * li + ai + aj + li + lj).
Proof.
  intros _ Hm Hk.
  destruct (run_no_fault events er nb ipe Hm) as (fs & st' & Hrun & _).
  destruct (run_upto_prefix k _ _ _ _ _ _ Hrun)
    as (fs_k & fs_rest & st_k & Hupto & -> & Hlen & Hrest & _).
  rewrite (drop_S events (t, i, j) k Hk) in Hrest. cbn [phase2] in Hrest.
  destruct (phase2_step ipe st_k (t, i, j)) as [[f st1]|] eqn:Hstep; [|done].
  cbn [mbind result_bind] in Hrest.
  destruct (phase2 ipe st1 _) as [[fs3 st3]|]; [|done].
  cbn [mbind result_bind] in Hrest. simplify_eq.
  destruct (phase2_step_Ok _ _ _ _ _ _ _ Hstep)
    as (u & HD & _ & _ & HL & Hf & _).
  exists fs_k, st_k, f, st1, u, (yielded <$> (fs_k ++ f :: fs3)),
    (nodeBetweenness st').
  repeat split; [done..|by apply eventBetweenness_run|].
  cbn zeta. rewrite list_lookup_fmap, list_lookup_middle.
  - by rewrite Hf.
  - rewrite Hlen, length_take. apply lookup_lt_Some in Hk.
    symmetry. apply Nat.min_l, Nat.lt_le_incl. exact Hk.
Qed.

(** C4, as the code has it.  On valid events, with an empty dictionary
    supplied and path ends not included, the values of the final
    dictionary sum to the sum over the events of
    [a_i*l_j + a_j*l_i + l_i + l_j]: each event credits its nodes with
    the paths that cross it and with the paths that start with it. *)
Theorem node_sum_arriving (events : list (@event K)) er :
  valid_events events → mirrored events er →
  ∃ fs st m,
    run events er (Some ∅) false = Ok (fs, st)
    ∧ Forall2 locals_of events fs
    ∧ nodeBetweenness st = Some m
    ∧ sum_values m = sumZ (arriving_paths <$> fs).
Proof.
  intros [_ Hdist] Hm.
  destruct (run_no_fault events er (Some ∅) false Hm)
    as (fs & st & Hrun & Hfs).
  destruct (run_nodeBetweenness _ _ _ _ _ _ Hrun false (Some ∅))
    as (st' & Hrun' & Hnb).
  rewrite Hrun in Hrun'. simplify_eq.
  exists fs, st', (update_all false fs ∅). repeat split; [done..|].
  rewrite sum_values_update_all, sum_values_empty; [lia|].
  clear -Hdist Hfs. induction Hfs as [|e f evs fs (_ & Hi & Hj) _ IH]; [done|].
  apply Forall_cons in Hdist as [He Hdist].
  constructor; [by rewrite Hi, Hj|auto].
Qed.

(** C5. Exchanging the endpoints of every event changes neither the pairs
    yielded nor the final dictionary, whatever dictionary is supplied and
    whether path ends are included or not. *)
Theorem endpoint_symmetry (events : list (@event K)) nb ipe :
  ∃ out nb',
    eventBetweenness events None nb ipe = Ok (out, nb')
    ∧ eventBetweenness (swap_endpoints <$> events) None nb ipe
      = Ok (out, nb').
Proof.
  destruct (run_no_fault events None nb ipe) as (fs & st & Hrun & _);
    [by left|].
  exists (yielded <$> fs), (nodeBetweenness st).
  split; [by apply eventBetweenness_run|].
  revert Hrun. unfold eventBetweenness, run.
  rewrite !initial_state_mirrored by (by left).
  rewrite phase1_swap. cbn [fst snd]. intros Hrun.
  rewrite (phase2_swap _ _ _ _ _ _ _ _ Hrun). cbn [mbind result_bind].
  do 2 f_equal. rewrite <- list_fmap_compose.
  apply list_fmap_ext. intros ? f _. apply yielded_swap.
Qed.

(** C6. On events sorted by time with distinct endpoints, and
    [events_reversed] omitted or the mirror of [events], every value
    yielded is a non-negative integer, and a supplied dictionary whose
    values are non-negative (the empty one, as the interface asks for)
    holds non-negative values after every [yield]. *)
Theorem betweenness_nonneg (events : list (@event K)) er nb0 ipe :
  valid_events events → mirrored events er → nonneg_values nb0 →
  (∀ nb, ∃ out nb',
     eventBetweenness events er nb ipe = Ok (out, nb')
     ∧ Forall (λ p, 0 ≤ p.2) out)
  ∧ (∀ n, ∃ fs st m,
       run_upto n events er (Some nb0) ipe = Ok (fs, st)
       ∧ nodeBetweenness st = Some m
       ∧ nonneg_values m).
Proof.
  intros [_ Hdist] Hm Hnb0. split.
  - intros nb.
    destruct (run_nonneg events er nb ipe Hm Hdist)
      as (fs & st & Hrun & _ & Hfs).
    exists (yielded <$> fs), (nodeBetweenness st).
    split; [by apply eventBetweenness_run|].
    apply Forall_fmap. eapply Forall_impl; [exact Hfs|].
    intros f (Hai & Haj & Hli & Hlj). simpl. nia.
  - intros n.
    destruct (run_nonneg events er (Some nb0) ipe Hm Hdist)
      as (fs & st & Hrun & _ & Hfs).
    destruct (run_upto_prefix n _ _ _ _ _ _ Hrun)
      as (fs_n & fs_rest & st_n & Hupto & -> & _ & _ & Hnb).
    exists fs_n, st_n, (update_all ipe fs_n nb0).
    split; [done|]. split; [done|].
    apply Forall_app in Hfs as [Hfs _]. by apply update_all_nonneg.
Qed.

(** C8. On valid events, the final dictionary of a run that includes path
    ends has the keys of the final dictionary of the run that does not,
    and a total at least as large for every node (both runs given an
    empty dictionary). *)
Theorem path_ends_toggle (events : list (@event K)) er :
  valid_events events → mirrored events er →
  ∃ out m_t m_f,
    eventBetweenness events er (Some ∅) true = Ok (out, Some m_t)
    ∧ eventBetweenness events er (Some ∅) false = Ok (out, Some m_f)
    ∧ dom m_t = dom m_f
    ∧ ∀ k v_f, m_f !! k = Some v_f → ∃ v_t, m_t !! k = Some v_t ∧ v_f ≤ v_t.
Proof.
  intros [_ Hdist] Hm.
  destruct (run_nonneg events er (Some ∅) true Hm Hdist)
    as (fs & st & Hrun & _ & Hfs).
  destruct (run_nodeBetweenness _ _ _ _ _ _ Hrun true (Some ∅))
    as (st_t & Hrun_t & Hnb_t).
  destruct (run_nodeBetweenness _ _ _ _ _ _ Hrun false (Some ∅))
    as (st_f & Hrun_f & Hnb_f).
  assert (below (update_all false fs ∅) (update_all true fs ∅)) as Hbelow.
  { apply update_all_below; [done|]. by intros k. }
  exists (yielded <$> fs), (update_all true fs ∅), (update_all false fs ∅).
  split; [by rewrite (eventBetweenness_run _ _ _ _ _ _ Hrun_t), Hnb_t|].
  split; [by rewrite (eventBetweenness_run _ _ _ _ _ _ Hrun_f), Hnb_f|].
  split.
  - apply set_eq. intros k. rewrite !elem_of_dom. symmetry. apply Hbelow.
  - intros k v_f Hk. destruct (Hbelow k) as [Hdom Hle].
    destruct (proj1 Hdom (mk_is_Some _ _ Hk)) as [v_t Hk'].
    exists v_t. split; [done|].
    by rewrite (count_of_Some _ _ _ Hk), (count_of_Some _ _ _ Hk') in Hle.
Qed.

(** ** A single event *)

Lemma count_of_empty (k : K) : count_of ∅ k = 0.
Proof. unfold count_of. by rewrite lookup_empty. Qed.

(** The run on one event, whether its endpoints differ or not. *)
Lemma run_single t (i j : K) nb ipe :
  let L0 : gmap K Z := <[j := 1]> (<[i := 1]> ∅) in
  let L := corrected L0 i j (1, 1) in
  let f := Locals t i j 0 0 (count_of L i) (count_of L j) in
  initial_state [(t, i, j)] None nb = State ∅ L0 [(1, 1)] nb
  ∧ run [(t, i, j)] None nb ipe
    = Ok ([f], State (<[j := 1]> (<[i := 1]> ∅)) L []
                 (update_nodeBetweenness ipe f <$> nb)).
Proof.
  intros L0 L f.
  assert (initial_state [(t, i, j)] None nb = State ∅ L0 [(1, 1)] nb) as Hinit.
  { unfold initial_state, phase1. cbn [default reverse rev_append fold_left].
    rewrite phase1_step_eq. by rewrite !count_of_empty. }
  split; [done|]. unfold run. rewrite Hinit. cbn [phase2].
  rewrite phase2_step_eq.
  - cbn zeta. by rewrite !count_of_empty.
  - subst L0. rewrite !lookup_insert. repeat case_decide; simplify_eq; eauto.
  - subst L0. rewrite !lookup_insert. repeat case_decide; simplify_eq; eauto.
Qed.

(** C2, as the code has it.  The one pair yielded for a single event
    between two distinct nodes is [(t, 0)]: no path arrives before the
    event and none leaves after it, and the path made of the event alone
    is not counted. *)
Theorem single_event_betweenness t (i j : K) nb ipe :
  i ≠ j →
  ∃ nb', eventBetweenness [(t, i, j)] None nb ipe = Ok ([(t, 0)], nb').
Proof.
  intros Hij. destruct (run_single t i j nb ipe) as [_ Hrun].
  cbn zeta in Hrun. rewrite (eventBetweenness_run _ _ _ _ _ _ Hrun).
  eexists. f_equal. f_equal. unfold corrected, yielded; simpl.
  rewrite !(count_of_insert_ne _ i j), !count_of_insert_eq by done.
  rewrite !(count_of_insert_ne _ j i), !count_of_insert_eq by done.
  done.
Qed.

(** C10. A single self-loop event [(t, i, i)] yields [(t, -2)]: Phase I
    leaves the count [1] for [i] and the correction [(1, 1)], and Phase II
    subtracts both components from the count of [i], which ends at
    [-1]. *)
Theorem self_loop_single t (i : K) nb ipe :
  ∃ fs st nb',
    L_count (initial_state [(t, i, i)] None nb) !! i = Some 1
    ∧ L_diff (initial_state [(t, i, i)] None nb) = [(1, 1)]
    ∧ run [(t, i, i)] None nb ipe = Ok (fs, st)
    ∧ L_count st !! i = Some (-1)
    ∧ eventBetweenness [(t, i, i)] None nb ipe = Ok ([(t, -2)], nb').
Proof.
  destruct (run_single t i i nb ipe) as [Hinit Hrun]. cbn zeta in *.
  eexists _, _, _. rewrite Hinit. cbn [L_count L_diff].
  split; [by rewrite lookup_insert_eq|].
  split; [done|]. split; [exact Hrun|].
  rewrite (eventBetweenness_run _ _ _ _ _ _ Hrun).
  unfold corrected, yielded; simpl.
  rewrite !count_of_insert_eq, lookup_insert_eq. done.
Qed.

(** The first self-loop of a run: whatever comes before it (with distinct
    endpoints) and after it, the pair yielded for it is [(t, -2)]. *)
Lemma first_self_loop (pre : list (@event K)) t i (post : list (@event K)) nb ipe :
  distinct_endpoints pre →
  ∃ out nb',
    eventBetweenness (pre ++ (t, i, i) :: post) None nb ipe = Ok (out, nb')
    ∧ out !! length pre = Some (t, -2).
Proof.
  intros Hdist. set (events := pre ++ (t, i, i) :: post).
  destruct (run_no_fault events None nb ipe) as (fs & st & Hrun & _);
    [by left|].
  exists (yielded <$> fs), (nodeBetweenness st).
  split; [by apply eventBetweenness_run|].
  revert Hrun. unfold run. rewrite initial_state_mirrored by (by left).
  subst events. rewrite phase2_app.
  destruct (phase2_undo_prefix ipe pre ((t, i, i) :: post) Hdist ∅
              (phase1 (reverse (pre ++ (t, i, i) :: post))).1 nb)
    as (fs1 & st1 & Hpre & _ & HL & HD & _);
    [apply tracks_refl|apply map_Forall_empty|].
  rewrite Hpre. cbn [mbind result_bind phase2].
  assert (length fs1 = length pre) as Hlen.
  { symmetry. eapply Forall2_length, phase2_locals_of, Hpre. }
  revert HL HD. rewrite phase1_cons.
  destruct (phase1 (reverse post)) as [L0 D0]. rewrite phase1_step_eq.
  cbn [fst snd]. destruct st1 as [A1 L1 D1 nb1]. cbn [L_count L_diff].
  intros HL ->.
  destruct (HL i) as [Hi Hc]. rewrite count_of_insert_eq in Hc.
  rewrite phase2_step_eq.
  2,3: apply Hi; rewrite lookup_insert_eq; eauto.
  cbn zeta. cbn [mbind result_bind].
  destruct (phase2 ipe _ post) as [[fs2 st2]|]; [|done].
  cbn [mbind result_bind]. intros [= <- <-].
  rewrite list_lookup_fmap, list_lookup_middle by done.
  unfold corrected, yielded; simpl. rewrite !count_of_insert_eq, Hc.
  do 2 f_equal. lia.
Qed.

End Properties.


(** * The worked examples *)

Section Examples.

Local Open Scope string_scope.

Lemma chain_valid : valid_events chain.
Proof.
  split; [simpl; unfold time; simpl; lia|].
  repeat constructor; discriminate.
Qed.

(** C1 as stated fails: the pairs yielded for the chain are not
    [(0, 2)] and [(1, 2)]. *)
Lemma chain_betweenness_not_two :
  fst <$> eventBetweenness chain None None false ≠ Ok [(0, 2); (1, 2)].
Proof. vm_compute. discriminate. Qed.

(** C1, as the code has it.  For the chain [(0, A, B)], [(1, B, C)] the
    generator yields [(0, 1)] and [(1, 1)]: each event lies on the one
    path through both events, and the path made of an event alone is not
    counted. *)
Theorem chain_betweenness nb ipe :
  ∃ nb', eventBetweenness chain None nb ipe = Ok ([(0, 1); (1, 1)], nb').
Proof.
  assert (fst <$> eventBetweenness chain None None false
          = Ok [(0, 1); (1, 1)]) as Hout by (vm_compute; reflexivity).
  unfold eventBetweenness in Hout.
  destruct (run chain None None false) as [[fs st]|] eqn:Hrun; [|done].
  injection Hout as Hout.
  destruct (run_nodeBetweenness _ _ _ _ _ _ Hrun ipe nb) as (st' & Hrun' & _).
  rewrite (eventBetweenness_run _ _ _ _ _ _ Hrun'). eexists.
  by rewrite <- Hout.
Qed.

(** C2 as stated fails: a single event does not yield [(0, 1)]. *)
Lemma single_event_not_one :
  fst <$> eventBetweenness [(0, "A", "B")] None None false ≠ Ok [(0, 1)].
Proof. vm_compute. discriminate. Qed.

Lemma single_event_betweenness_witness :
  "A" ≠ "B"
  ∧ ∃ nb', eventBetweenness [(0, "A", "B")] None None false
           = Ok ([(0, 0)], nb').
Proof.
  split; [discriminate|].
  apply (single_event_betweenness 0 "A" "B" None false). discriminate.
Defined.

Lemma emitted_formula_witness :
  valid_events chain ∧ mirrored chain (Some (reverse chain))
  ∧ chain !! 1%nat = Some (1, "B", "C")
  ∧ ∃ fs st f st1 u out nb',
      run_upto 1 chain (Some (reverse chain)) None false = Ok (fs, st)
      ∧ phase2_step false st (1, "B", "C") = Ok (f, st1)
      ∧ L_diff st = u :: L_diff st1
      ∧ L_count st1 = corrected (L_count st) "B" "C" u
      ∧ eventBetweenness chain (Some (reverse chain)) None false
        = Ok (out, nb')
      ∧ let ai := count_of (A_count st) "B" in
        let aj := count_of (A_count st) "C" in
        let li := count_of (L_count st1) "B" in
        let lj := count_of (L_count st1) "C" in
        out !! 1%nat = Some (1, ai * lj + aj * li + ai + aj + li + lj).
Proof.
  split; [exact chain_valid|]. split; [by right|]. split; [reflexivity|].
  apply (emitted_formula chain (Some (reverse chain)) None false 1 1 "B" "C").
  - exact chain_valid.
  - by right.
  - reflexivity.
Defined.

(** C4 as stated fails: on the chain the values of the final dictionary
    sum to [1] (the path through both events, credited to [B]), while the
    terms [a_i*l_j + a_j*l_i] of the two events sum to [0]. *)
Lemma node_sum_not_through :
  ∃ fs st m,
    valid_events chain
    ∧ run chain None (Some ∅) false = Ok (fs, st)
    ∧ nodeBetweenness st = Some m
    ∧ sum_values m = 1
    ∧ sumZ (through_paths <$> fs) = 0
    ∧ sum_values m ≠ sumZ (through_paths <$> fs).
Proof.
  assert ((λ r : list locals * state,
             (sum_values <$> nodeBetweenness r.2,
              sumZ (through_paths <$> r.1)))
            <$> run chain None (Some ∅) false
          = Ok (Some 1, 0)) as Hsums by (vm_compute; reflexivity).
  destruct (run chain None (Some ∅) false) as [[fs st]|] eqn:Hrun; [|done].
  injection Hsums as Hm Hfs. simpl in Hm, Hfs.
  destruct (nodeBetweenness st) as [m|] eqn:Hnb; [|done].
  injection Hm as Hm.
  exists fs, st, m. split; [exact chain_valid|].
  repeat split; [done..|]. rewrite Hm, Hfs. discriminate.
Qed.

Lemma node_sum_arriving_witness :
  valid_events chain ∧ mirrored chain None
  ∧ ∃ fs st m,
      run chain None (Some ∅) false = Ok (fs, st)
      ∧ Forall2 locals_of chain fs
      ∧ nodeBetweenness st = Some m
      ∧ sum_values m = sumZ (arriving_paths <$> fs).
Proof.
  split; [exact chain_valid|]. split; [by left|].
  apply (node_sum_arriving chain None); [exact chain_valid|by left].
Defined.

Lemma betweenness_nonneg_witness :
  valid_events chain ∧ mirrored chain None ∧ nonneg_values (∅ : gmap string Z)
  ∧ (∀ nb, ∃ out nb',
       eventBetweenness chain None nb true = Ok (out, nb')
       ∧ Forall (λ p, (0 ≤ p.2)%Z) out)
  ∧ (∀ n, ∃ fs st m,
       run_upto n chain None (Some ∅) true = Ok (fs, st)
       ∧ nodeBetweenness st = Some m
       ∧ nonneg_values m).
Proof.
  split; [exact chain_valid|]. split; [by left|].
  split; [apply map_Forall_empty|].
  apply (betweenness_nonneg chain None ∅ true);
    [exact chain_valid|by left|apply map_Forall_empty].
Defined.

Lemma order_preservation_witness :
  mirrored chain None
  ∧ ∃ out nb',
      eventBetweenness chain None None false = Ok (out, nb')
      ∧ length out = length chain
      ∧ out.*1 = time <$> chain
      ∧ ∀ k e, chain !! k = Some e → ∃ b, out !! k = Some (time e, b).
Proof.
  split; [by left|].
  apply (order_preservation chain None None false). by left.
Defined.

Lemma path_ends_toggle_witness :
  valid_events chain ∧ mirrored chain None
  ∧ ∃ out m_t m_f,
      eventBetweenness chain None (Some ∅) true = Ok (out, Some m_t)
      ∧ eventBetweenness chain None (Some ∅) false = Ok (out, Some m_f)
      ∧ dom m_t = dom m_f
      ∧ ∀ k v_f, m_f !! k = Some v_f → ∃ v_t, m_t !! k = Some v_t ∧ (v_f ≤ v_t)%Z.
Proof.
  split; [exact chain_valid|]. split; [by left|].
  apply (path_ends_toggle chain None); [exact chain_valid|by left].
Defined.

(** A reversed sequence that is not the mirror of [events] can make the
    generator raise: here the deque is empty at the first [pop]. *)
Example mismatched_reverse_raises :
  eventBetweenness [(0, "A", "B")] (Some []) None false = Raise IndexError.
Proof. reflexivity. Qed.

(** A self-loop after an ordinary event: the pair yielded for it is
    negative as well. *)
Example self_loop_after_event :
  fst <$> eventBetweenness [(0, "A", "B"); (1, "B", "B")] None None false
  = Ok [(0, 1); (1, -2)].
Proof. vm_compute. reflexivity. Qed.

End Examples.

(** * Further properties of the generator *)

Section FurtherProperties.

Context {K : Type} `{Countable K}.

#[local] Arguments phase1_step : simpl never.
#[local] Arguments phase2_step : simpl never.

(** ** Phase I on any sequence *)

Lemma phase1_snoc (l : list (@event K)) e :
  phase1 (l ++ [e]) = phase1_step (phase1 l) e.
Proof. unfold phase1. by rewrite fold_left_app. Qed.

Lemma phase1_length_any (l : list (@event K)) :
  length (phase1 l).2 = length l.
Proof.
  rewrite <- (reverse_involutive l) at 1.
  by rewrite phase1_length, length_reverse.
Qed.

Lemma mentions_snoc (l : list (@event K)) t i j k :
  mentions (l ++ [(t, i, j)]) k ↔ mentions l k ∨ i = k ∨ j = k.
Proof.
  unfold mentions. rewrite Exists_app, Exists_cons, Exists_nil.
  unfold nodeA, nodeB; simpl. tauto.
Qed.

(** The keys of [L_count] after Phase I are the nodes of the events it has
    gone through. *)
Lemma phase1_keys (l : list (@event K)) k :
  is_Some ((phase1 l).1 !! k) ↔ mentions l k.
Proof.
  induction l as [|[[t i] j] l IH] using rev_ind.
  - unfold mentions. rewrite Exists_nil. cbn. rewrite lookup_empty.
    split; [by intros [? ?]|done].
  - rewrite phase1_snoc, mentions_snoc, <- IH.
    destruct (phase1 l) as [L D]. rewrite phase1_step_eq. cbn [fst].
    rewrite !lookup_insert. repeat case_decide; simplify_eq.
    + split; eauto.
    + split; eauto.
    + split; [eauto|]. by intros [?|[?|?]].
Qed.

(** ** Phase II on any deque *)

(** A deque with fewer corrections than there are events left makes some
    iteration raise. *)
Lemma phase2_short_deque ipe (evs : list (@event K)) : ∀ st,
  (length (L_diff st) < length evs)%nat →
  ∃ e, phase2 ipe st evs = Raise e.
Proof.
  induction evs as [|[[t i] j] rest IH]; intros st Hlen; simpl in Hlen;
    [lia|].
  cbn [phase2].
  destruct (phase2_step ipe st (t, i, j)) as [[f st1]|e] eqn:Hstep;
    cbn [mbind result_bind]; [|eauto].
  destruct (phase2_step_Ok _ _ _ _ _ _ _ Hstep) as (u & HD & _).
  destruct (IH st1) as [e He].
  { rewrite HD in Hlen. simpl in Hlen. lia. }
  rewrite He. cbn [mbind result_bind]. eauto.
Qed.

(** ** A reversed sequence that is not the mirror *)

Lemma initial_state_Some (events er : list (@event K)) nb :
  initial_state events (Some er) nb
  = State ∅ (phase1 er).1 (phase1 er).2 nb.
Proof.
  unfold initial_state.
  change (default (reverse events) (Some er)) with er.
  by destruct (phase1 er).
Qed.

(** X1. When [events_reversed] is supplied with fewer events than
    [events], the generator cannot run to exhaustion: some iteration
    raises. *)
Theorem reversed_too_short (events er : list (@event K)) nb ipe :
  (length er < length events)%nat →
  ∃ e, eventBetweenness events (Some er) nb ipe = Raise e.
Proof.
  intros Hlen. unfold eventBetweenness, run. rewrite initial_state_Some.
  pose proof (phase1_length_any er) as Hstack.
  destruct (phase2_short_deque ipe events
              (State ∅ (phase1 er).1 (phase1 er).2 nb)) as [e He].
  { cbn [L_diff]. lia. }
  rewrite He. cbn [mbind result_bind]. eauto.
Qed.

(** X2. When [events_reversed] has at least as many events as [events]
    and mentions every node of [events], no iteration raises, mirror or
    not: the generator yields one pair per event, with the times of the
    events. *)
Theorem reversed_long_enough (events er : list (@event K)) nb ipe :
  (length events ≤ length er)%nat →
  (∀ k, mentions events k → mentions er k) →
  ∃ out nb',
    eventBetweenness events (Some er) nb ipe = Ok (out, nb')
    ∧ out.*1 = time <$> events.
Proof.
  intros Hlen Hnodes. unfold eventBetweenness, run.
  rewrite initial_state_Some.
  pose proof (phase1_length_any er) as Hstack.
  pose proof (phase1_keys er) as Hkeys.
  destruct (phase2_no_fault ipe events
              (State ∅ (phase1 er).1 (phase1 er).2 nb)) as (fs & st & Hrun).
  - cbn [L_diff]. lia.
  - cbn [L_count]. apply Forall_forall. intros e He.
    split; apply Hkeys, Hnodes, Exists_exists; exists e; eauto.
  - rewrite Hrun. cbn [mbind result_bind]. eexists _, _. split; [done|].
    eapply yielded_times, phase2_locals_of, Hrun.
Qed.

(** ** The dictionary [nodeBetweenness] *)

(** X3. The pairs yielded do not depend on the dictionary supplied nor on
    [include_path_ends]. *)
Theorem yields_independent (events : list (@event K)) er nb ipe out nb'
    nb2 ipe2 :
  eventBetweenness events er nb ipe = Ok (out, nb') →
  ∃ nb2', eventBetweenness events er nb2 ipe2 = Ok (out, nb2').
Proof.
  unfold eventBetweenness.
  destruct (run events er nb ipe) as [[fs st]|] eqn:Hrun; [|done].
  cbn [mbind result_bind]. intros [= <- <-].
  destruct (run_nodeBetweenness _ _ _ _ _ _ Hrun ipe2 nb2) as (st2 & -> & _).
  cbn [mbind result_bind]. eauto.
Qed.

Lemma update_nodeBetweenness_keys ipe f (nb : gmap K Z) k :
  is_Some (update_nodeBetweenness ipe f nb !! k)
  ↔ is_Some (nb !! k) ∨ loc_i f = k ∨ loc_j f = k.
Proof.
  rewrite update_nodeBetweenness_eq, !lookup_insert.
  repeat case_decide; simplify_eq.
  - split; eauto.
  - split; eauto.
  - split; [eauto|]. by intros [?|[?|?]].
Qed.

Lemma update_all_keys ipe (fs : list (@locals K)) : ∀ (nb : gmap K Z) k,
  is_Some (update_all ipe fs nb !! k)
  ↔ is_Some (nb !! k) ∨ Exists (λ f, loc_i f = k ∨ loc_j f = k) fs.
Proof.
  induction fs as [|f fs IH]; intros nb k.
  - rewrite Exists_nil. cbn. tauto.
  - change (update_all ipe (f :: fs) nb)
      with (update_all ipe fs (update_nodeBetweenness ipe f nb)).
    rewrite IH, update_nodeBetweenness_keys, Exists_cons. tauto.
Qed.

Lemma locals_of_mentions (evs : list (@event K)) fs k :
  Forall2 locals_of evs fs →
  Exists (λ f, loc_i f = k ∨ loc_j f = k) fs ↔ mentions evs k.
Proof.
  unfold mentions.
  induction 1 as [|e f evs fs (_ & Hi & Hj) _ IH].
  - by rewrite !Exists_nil.
  - by rewrite !Exists_cons, IH, Hi, Hj.
Qed.

(** X4. Once the generator is exhausted, the keys of the dictionary
    supplied are the keys it had and the nodes of the events. *)
Theorem nodeBetweenness_keys (events : list (@event K)) er nb0 ipe :
  mirrored events er →
  ∃ out m,
    eventBetweenness events er (Some nb0) ipe = Ok (out, Some m)
    ∧ ∀ k, is_Some (m !! k) ↔ is_Some (nb0 !! k) ∨ mentions events k.
Proof.
  intros Hm.
  destruct (run_no_fault events er (Some nb0) ipe Hm)
    as (fs & st & Hrun & Hfs).
  destruct (run_nodeBetweenness _ _ _ _ _ _ Hrun ipe (Some nb0))
    as (st' & Hrun' & Hnb).
  rewrite Hrun in Hrun'. simplify_eq.
  exists (yielded <$> fs), (update_all ipe fs nb0).
  split; [by rewrite (eventBetweenness_run _ _ _ _ _ _ Hrun), Hnb|].
  intros k. by rewrite update_all_keys, (locals_of_mentions events).
Qed.

Lemma update_all_shift ipe (fs : list (@locals K)) (δ : K → Z) :
  ∀ nb nb' : gmap K Z,
    (∀ k, count_of nb k = δ k + count_of nb' k) →
    ∀ k, count_of (update_all ipe fs nb) k
         = δ k + count_of (update_all ipe fs nb') k.
Proof.
  induction fs as [|f fs IH]; intros nb nb' Hnb; [done|].
  change (update_all ipe (f :: fs) ?m)
    with (update_all ipe fs (update_nodeBetweenness ipe f m)).
  apply IH. intros k. rewrite !update_nodeBetweenness_eq.
  pose proof (Hnb (loc_i f)). pose proof (Hnb (loc_j f)).
  destruct (decide (loc_j f = k)) as [<-|Hj].
  { rewrite !count_of_insert_eq. lia. }
  rewrite !(count_of_insert_ne _ (loc_j f)) by done.
  destruct (decide (loc_i f = k)) as [<-|Hi].
  { rewrite !count_of_insert_eq. lia. }
  rewrite !(count_of_insert_ne _ (loc_i f)) by done. apply Hnb.
Qed.

(** X5. A dictionary that is not empty is added to: every node ends with
    the total it had, plus the total the same run gives it in an empty
    dictionary. *)
Theorem nodeBetweenness_accumulates (events : list (@event K)) er nb0 ipe :
  mirrored events er →
  ∃ out m m0,
    eventBetweenness events er (Some nb0) ipe = Ok (out, Some m)
    ∧ eventBetweenness events er (Some ∅) ipe = Ok (out, Some m0)
    ∧ ∀ k, count_of m k = count_of nb0 k + count_of m0 k.
Proof.
  intros Hm.
  destruct (run_no_fault events er (Some nb0) ipe Hm)
    as (fs & st & Hrun & _).
  destruct (run_nodeBetweenness _ _ _ _ _ _ Hrun ipe (Some nb0))
    as (st1 & Hrun1 & Hnb1).
  destruct (run_nodeBetweenness _ _ _ _ _ _ Hrun ipe (Some ∅))
    as (st2 & Hrun2 & Hnb2).
  exists (yielded <$> fs), (update_all ipe fs nb0), (update_all ipe fs ∅).
  split; [by rewrite (eventBetweenness_run _ _ _ _ _ _ Hrun1), Hnb1|].
  split; [by rewrite (eventBetweenness_run _ _ _ _ _ _ Hrun2), Hnb2|].
  apply update_all_shift. intros k. rewrite count_of_empty. lia.
Qed.

(** ** Arrival counts and leaving counts *)

Lemma phase1_stack_irrelevant (l : list (@event K)) : ∀ A D D',
  (fold_left phase1_step l (A, D)).1 = (fold_left phase1_step l (A, D')).1.
Proof.
  induction l as [|[[t i] j] l IH]; intros A D D'; [done|].
  cbn [fold_left]. rewrite !phase1_step_eq. apply IH.
Qed.

(** The arrival counts evolve the way the leaving counts of Phase I do. *)
Lemma phase2_arrivals ipe (evs : list (@event K)) : ∀ st fs st',
  phase2 ipe st evs = Ok (fs, st') →
  A_count st' = (fold_left phase1_step evs (A_count st, [])).1.
Proof.
  induction evs as [|[[t i] j] rest IH]; intros st fs st' Hrun.
  { cbn in Hrun. by simplify_eq. }
  cbn [phase2] in Hrun.
  destruct (phase2_step ipe st (t, i, j)) as [[f st1]|] eqn:Hstep; [|done].
  cbn [mbind result_bind] in Hrun.
  destruct (phase2 ipe st1 rest) as [[fs1 st2]|] eqn:Hrest; [|done].
  cbn [mbind result_bind] in Hrun. simplify_eq.
  rewrite (IH _ _ _ Hrest). cbn [fold_left]. rewrite phase1_step_eq.
  destruct (phase2_step_Ok _ _ _ _ _ _ _ Hstep)
    as (_ & _ & _ & _ & _ & Hf & HA & _).
  rewrite HA, Hf. cbn [a_i a_j]. apply phase1_stack_irrelevant.
Qed.

Lemma corrected_keys (L : gmap K Z) i j u k :
  is_Some (L !! i) → is_Some (L !! j) →
  is_Some (corrected L i j u !! k) ↔ is_Some (L !! k).
Proof.
  intros Hi Hj. unfold corrected; cbn zeta. rewrite !lookup_insert.
  repeat case_decide; simplify_eq; split; eauto.
Qed.

(** Every iteration pops one correction and leaves the keys of [L_count]
    as they are. *)
Lemma phase2_resources ipe (evs : list (@event K)) : ∀ st fs st',
  phase2 ipe st evs = Ok (fs, st') →
  length (L_diff st) = (length evs + length (L_diff st'))%nat
  ∧ ∀ k, is_Some (L_count st' !! k) ↔ is_Some (L_count st !! k).
Proof.
  induction evs as [|[[t i] j] rest IH]; intros st fs st' Hrun.
  { cbn in Hrun. by simplify_eq. }
  cbn [phase2] in Hrun.
  destruct (phase2_step ipe st (t, i, j)) as [[f st1]|] eqn:Hstep; [|done].
  cbn [mbind result_bind] in Hrun.
  destruct (phase2 ipe st1 rest) as [[fs1 st2]|] eqn:Hrest; [|done].
  cbn [mbind result_bind] in Hrun. simplify_eq.
  destruct (IH _ _ _ Hrest) as [Hlen Hkeys].
  destruct (phase2_step_Ok _ _ _ _ _ _ _ Hstep)
    as (u & HD & Hi & Hj & HL & _).
  split.
  - rewrite HD. simpl. lia.
  - intros k. rewrite Hkeys, HL. by apply corrected_keys.
Qed.

Lemma mentions_reverse (l : list (@event K)) k :
  mentions (reverse l) k ↔ mentions l k.
Proof.
  unfold mentions. rewrite !Exists_exists.
  by setoid_rewrite elem_of_reverse.
Qed.

(** X6. After [n] iterations (and [events_reversed] omitted or the
    mirror), the deque holds one correction per event still to come, the
    keys of [A_count] are the nodes of the events gone through, and the
    keys of [L_count] are the nodes of all the events: the state never
    holds more than one correction per event and one count per node. *)
Theorem resources_after (n : nat) (events : list (@event K)) er nb ipe :
  mirrored events er →
  ∃ fs st,
    run_upto n events er nb ipe = Ok (fs, st)
    ∧ length (L_diff st) = (length events - n)%nat
    ∧ (∀ k, is_Some (A_count st !! k) ↔ mentions (take n events) k)
    ∧ (∀ k, is_Some (L_count st !! k) ↔ mentions events k).
Proof.
  intros Hm.
  destruct (run_no_fault events er nb ipe Hm) as (fs & st & Hrun & _).
  destruct (run_upto_prefix n _ _ _ _ _ _ Hrun)
    as (fs_n & fs_rest & st_n & Hupto & _ & _ & Hrest & _).
  exists fs_n, st_n. split; [done|].
  unfold run_upto in Hupto. rewrite initial_state_mirrored in Hupto by done.
  unfold run in Hrun. rewrite initial_state_mirrored in Hrun by done.
  destruct (phase2_resources _ _ _ _ _ Hupto) as [Hlen Hkeys].
  destruct (phase2_resources _ _ _ _ _ Hrun) as [Hlen' _].
  cbn [L_diff L_count] in *.
  rewrite phase1_length in Hlen, Hlen'. rewrite length_take in Hlen.
  split; [lia|]. split.
  - intros k. rewrite (phase2_arrivals _ _ _ _ _ Hupto). cbn [A_count].
    apply (phase1_keys (take n events)).
  - intros k. by rewrite Hkeys, phase1_keys, mentions_reverse.
Qed.

(** X7. On valid events (and [events_reversed] omitted or the mirror),
    the exhausted generator has emptied the deque and taken every leaving
    count back to [0]; the arrival counts it ends with are the counts
    Phase I computes when it is given the events in forward order. *)
Theorem exhausted_state (events : list (@event K)) er nb ipe :
  valid_events events → mirrored events er →
  ∃ fs st,
    run events er nb ipe = Ok (fs, st)
    ∧ L_diff st = []
    ∧ (∀ k v, L_count st !! k = Some v → v = 0)
    ∧ A_count st = (phase1 events).1.
Proof.
  intros [_ Hdist] Hm. unfold run. rewrite initial_state_mirrored by done.
  destruct (phase2_undo_prefix ipe events [] Hdist ∅
              (phase1 (reverse (events ++ []))).1 nb)
    as (fs & st & Hrun & _ & HL & HD & _);
    [apply tracks_refl|apply map_Forall_empty|].
  rewrite app_nil_r in Hrun. exists fs, st. split; [done|].
  split; [done|]. split.
  - intros k v Hk. destruct (HL k) as [_ Hc].
    rewrite (count_of_Some _ _ _ Hk) in Hc. by rewrite Hc.
  - by rewrite (phase2_arrivals _ _ _ _ _ Hrun).
Qed.

(** ** What the value of an event depends on *)

Lemma betweenness_from_sym (A L : gmap K Z) i j :
  betweenness_from L A i j = betweenness_from A L i j.
Proof. unfold betweenness_from. lia. Qed.

(** The locals of the iteration for an event that follows events with
    distinct endpoints: the arrival counts are the counts of Phase I on
    the events before it, the leaving counts those of Phase I on the
    events after it. *)
Lemma locals_closed_form ipe (pre post : list (@event K)) t i j nb fs st :
  distinct_endpoints pre → i ≠ j →
  run (pre ++ (t, i, j) :: post) None nb ipe = Ok (fs, st) →
  fs !! length pre
  = Some (Locals t i j
            (count_of (phase1 pre).1 i) (count_of (phase1 pre).1 j)
            (count_of (phase1 (reverse post)).1 i)
            (count_of (phase1 (reverse post)).1 j)).
Proof.
  intros Hdist Hij. unfold run. rewrite initial_state_mirrored by (by left).
  rewrite phase2_app.
  destruct (phase2_undo_prefix ipe pre ((t, i, j) :: post) Hdist ∅
              (phase1 (reverse (pre ++ (t, i, j) :: post))).1 nb)
    as (fs1 & st1 & Hpre & _ & HL & HD & _);
    [apply tracks_refl|apply map_Forall_empty|].
  rewrite Hpre. cbn [mbind result_bind phase2].
  assert (length fs1 = length pre) as Hlen.
  { symmetry. eapply Forall2_length, phase2_locals_of, Hpre. }
  pose proof (phase2_arrivals _ _ _ _ _ Hpre) as HA. cbn [A_count] in HA.
  fold (phase1 pre) in HA.
  revert HL HD.
  change (@cons (Z * K * K)%type (t, i, j) post)
    with (@cons (@event K) (t, i, j) post).
  rewrite phase1_cons.
  destruct (phase1 (reverse post)) as [L0 D0]. rewrite phase1_step_eq.
  cbn [fst snd]. destruct st1 as [A1 L1 D1 nb1]. cbn [L_count L_diff A_count] in *.
  intros HL ->. subst A1.
  assert (is_Some (L1 !! i) ∧ is_Some (L1 !! j)) as [Hi Hj].
  { split; [apply (HL i)|apply (HL j)]; rewrite !lookup_insert;
      repeat case_decide; simplify_eq; eauto. }
  rewrite phase2_step_eq by done. cbn zeta. cbn [mbind result_bind].
  pose proof (corrected_undo L1 L0 i j Hij HL) as HL'. cbn zeta in HL'.
  destruct (HL' i) as [_ ->]. destruct (HL' j) as [_ ->].
  destruct (phase2 ipe _ post) as [[fs2 st2]|]; [|done].
  cbn [mbind result_bind]. intros [= <- <-].
  by rewrite list_lookup_middle.
Qed.

(** X8. The value yielded for an event that follows events with distinct
    endpoints is the yield expression on the counts Phase I computes for
    the events before it (in forward order) and for the events after it
    (in reversed order): it depends on nothing else. *)
Theorem yielded_closed_form (pre post : list (@event K)) t i j nb ipe :
  distinct_endpoints pre → i ≠ j →
  ∃ out nb',
    eventBetweenness (pre ++ (t, i, j) :: post) None nb ipe = Ok (out, nb')
    ∧ out !! length pre
      = Some (t, betweenness_from (phase1 pre).1 (phase1 (reverse post)).1
                   i j).
Proof.
  intros Hdist Hij.
  destruct (run_no_fault (pre ++ (t, i, j) :: post) None nb ipe)
    as (fs & st & Hrun & _); [by left|].
  exists (yielded <$> fs), (nodeBetweenness st).
  split; [by apply eventBetweenness_run|].
  rewrite list_lookup_fmap,
    (locals_closed_form _ _ _ _ _ _ _ _ _ Hdist Hij Hrun).
  done.
Qed.

(** X9. Reading the events backwards gives the same values: on events
    with distinct endpoints, the pairs yielded for the reversed sequence
    are the pairs yielded for the sequence, in reversed order. *)
Theorem time_reversal (events : list (@event K)) nb ipe :
  distinct_endpoints events →
  ∃ out nb1 nb2,
    eventBetweenness events None nb ipe = Ok (out, nb1)
    ∧ eventBetweenness (reverse events) None nb ipe = Ok (reverse out, nb2).
Proof.
  intros Hdist.
  destruct (run_no_fault events None nb ipe) as (fs & st & Hrun & Hfs);
    [by left|].
  destruct (run_no_fault (reverse events) None nb ipe)
    as (fs_r & st_r & Hrun_r & Hfs_r); [by left|].
  exists (yielded <$> fs), (nodeBetweenness st), (nodeBetweenness st_r).
  split; [by apply eventBetweenness_run|].
  rewrite (eventBetweenness_run _ _ _ _ _ _ Hrun_r). do 2 f_equal.
  apply Forall2_length in Hfs, Hfs_r. rewrite length_reverse in Hfs_r.
  apply list_eq. intros k.
  destruct (decide (k < length events)%nat) as [Hk|Hk].
  2: { rewrite !lookup_ge_None_2; [done|..];
         rewrite ?length_reverse, length_fmap; lia. }
  rewrite reverse_lookup by (rewrite length_fmap; lia).
  rewrite length_fmap, !list_lookup_fmap, <- Hfs.
  destruct (lookup_lt_is_Some_2 events (length events - S k))
    as [[[t i] j] He]; [lia|].
  destruct (list_elem_of_split_length _ _ _ He) as (pre & post & -> & Hpre).
  rewrite Hpre. rewrite length_app in Hk, Hpre. cbn [length] in Hk, Hpre.
  assert (k = length (reverse post)) as -> by (rewrite length_reverse; lia).
  apply Forall_app in Hdist as [Hd_pre Hd].
  apply Forall_cons in Hd as [Hij Hd_post].
  unfold nodeA, nodeB in Hij; simpl in Hij.
  rewrite (locals_closed_form _ _ _ _ _ _ _ _ _ Hd_pre Hij Hrun).
  revert Hrun_r. rewrite reverse_app, reverse_cons, <- app_assoc.
  cbn [app]. intros Hrun_r.
  rewrite (locals_closed_form _ _ _ _ _ _ _ _ _
             (proj2 (Forall_reverse _ _) Hd_post) Hij Hrun_r).
  rewrite reverse_involutive. cbn [fmap option_fmap option_map].
  unfold yielded; cbn [loc_t a_i a_j l_i l_j]. do 2 f_equal. lia.
Qed.

End FurtherProperties.

(** * Properties of the enumerator *)

Section EnumeratorProperties.

Context {K : Type} `{Countable K}.

Import Enumerator.

Lemma list_getitem_nonneg {A} (l : list A) (n : nat) x :
  l !! n = Some x → list_getitem l (Z.of_nat n) = Ok x.
Proof.
  intros Hn. pose proof (lookup_lt_Some _ _ _ Hn) as Hlt.
  unfold list_getitem. cbn zeta.
  assert ((Z.of_nat n <? 0) = false) as -> by (apply Z.ltb_ge; lia).
  assert ((Z.of_nat n <? 0) = false) as -> by (apply Z.ltb_ge; lia).
  assert ((Z.of_nat (length l) <=? Z.of_nat n) = false) as ->
    by (apply Z.leb_gt; lia).
  cbn [orb]. by rewrite Nat2Z.id, Hn.
Qed.

Lemma consistent_init : consistent (__init__ (K:=K)).
Proof.
  split; [done|]. intros x n. cbn. rewrite lookup_empty.
  split; [done|]. by intros [_ ?].
Qed.

Lemma consistent_addItem (self : t (K:=K)) x :
  consistent self → number self !! x = None →
  consistent (_addItem self x).2.
Proof.
  intros [Hsize Hnum] Hx. split; cbn.
  - rewrite map_size_insert_None by done. rewrite length_app. simpl. lia.
  - intros y n. rewrite lookup_insert. case_decide as Hxy.
    + subst y. split.
      * intros [= <-]. split; [lia|].
        rewrite Nat2Z.id, Hsize. by apply list_lookup_middle.
      * intros [Hn Hy]. f_equal.
        destruct (decide (Z.to_nat n < length (item self))%nat) as [Hlt|Hge].
        { rewrite lookup_app_l in Hy by done.
          assert (number self !! x = Some n) as Hc by (apply Hnum; done).
          congruence. }
        apply lookup_lt_Some in Hy. rewrite length_app in Hy. simpl in Hy.
        lia.
    + rewrite Hnum. split; intros [Hn Hy]; (split; [done|]).
      * apply lookup_lt_Some in Hy as Hlt. by rewrite lookup_app_l.
      * destruct (decide (Z.to_nat n < length (item self))%nat) as [Hlt|Hge].
        { by rewrite lookup_app_l in Hy. }
        rewrite lookup_app_r in Hy by lia.
        destruct (Z.to_nat n - length (item self))%nat as [|m];
          simpl in Hy; [by simplify_eq|by destruct m].
Qed.

Lemma getitem_consistent (self : t (K:=K)) x :
  consistent self → consistent (__getitem__ self x).2.
Proof.
  intros Hc. unfold __getitem__.
  destruct (number self !! x) as [n|] eqn:Hx; [done|].
  by apply consistent_addItem.
Qed.

(** X10. The invariant of the enumerator: after any sequence of lookups
    on a fresh object (each of which may add an item), the dictionary and
    the list have the same length, and [number[x] = n] exactly when
    [item[n] = x]. *)
Theorem enumerator_consistent (xs : list K) :
  consistent (foldl (λ self x, (__getitem__ self x).2) __init__ xs).
Proof.
  induction xs as [|x xs IH] using rev_ind; [apply consistent_init|].
  rewrite foldl_app. cbn [foldl]. by apply getitem_consistent.
Qed.

(** X11. Round trip: on a consistent object, the number returned for an
    item is taken back to the item by [getReverse]. *)
Theorem enumerator_round_trip (self : t (K:=K)) x n self' :
  consistent self →
  __getitem__ self x = (n, self') →
  getReverse self' n = Ok x.
Proof.
  intros Hc Hget.
  assert (consistent self') as [_ Hnum].
  { replace self' with (__getitem__ self x).2 by (by rewrite Hget).
    by apply getitem_consistent. }
  assert (number self' !! x = Some n) as Hx.
  { revert Hget. unfold __getitem__, _addItem.
    destruct (number self !! x) as [m|] eqn:Hm; intros [= <- <-]; [done|].
    cbn. by rewrite lookup_insert_eq. }
  apply Hnum in Hx as [Hn Hx]. unfold getReverse.
  rewrite <- (Z2Nat.id n) by done. by apply list_getitem_nonneg.
Qed.

(** X12. Numbers are stable: looking an item up never changes the number
    of an item that has one, and asking again for the same item returns
    the same number and leaves the object as it is. *)
Theorem enumerator_stable (self : t (K:=K)) x n self' :
  __getitem__ self x = (n, self') →
  __getitem__ self' x = (n, self')
  ∧ ∀ y m, number self !! y = Some m → number self' !! y = Some m.
Proof.
  unfold __getitem__, _addItem.
  destruct (number self !! x) as [k|] eqn:Hx; intros [= <- <-]; cbn.
  - by rewrite Hx.
  - rewrite lookup_insert_eq. split; [done|].
    intros y m Hy. rewrite lookup_insert_ne; [done|]. congruence.
Qed.

(** X13. Distinct items get distinct numbers: on a consistent object, two
    lookups in a row that return the same number were for the same
    item. *)
Theorem enumerator_injective (self : t (K:=K)) x y n self1 self2 :
  consistent self →
  __getitem__ self x = (n, self1) →
  __getitem__ self1 y = (n, self2) →
  x = y.
Proof.
  intros Hc Hx Hy.
  pose proof (getitem_consistent self x Hc) as Hc1.
  rewrite Hx in Hc1. cbn in Hc1.
  pose proof (getitem_consistent self1 y Hc1) as [_ Hnum].
  rewrite Hy in Hnum. cbn in Hnum.
  assert (number self2 !! y = Some n) as Hy2.
  { revert Hy. unfold __getitem__, _addItem.
    destruct (number self1 !! y) as [m|] eqn:Hm; intros [= <- <-]; [done|].
    cbn. by rewrite lookup_insert_eq. }
  assert (number self1 !! x = Some n) as Hx1.
  { revert Hx. unfold __getitem__, _addItem.
    destruct (number self !! x) as [m|] eqn:Hm; intros [= <- <-]; [done|].
    cbn. by rewrite lookup_insert_eq. }
  assert (number self2 !! x = Some n) as Hx2.
  { revert Hy. unfold __getitem__, _addItem.
    destruct (number self1 !! y) as [m|] eqn:Hm; intros [= <- <-]; [done|].
    cbn. rewrite lookup_insert_ne; [done|]. congruence. }
  apply Hnum in Hy2 as [_ Hy2]. apply Hnum in Hx2 as [_ Hx2]. congruence.
Qed.

(** X14. Numbers are handed out in order: on a consistent object, an item
    that has no number gets the current length and the length grows by
    one; an item that has a number leaves the object unchanged; in both
    cases the number lies between [0] and the new length. *)
Theorem enumerator_numbering (self : t (K:=K)) x n self' :
  consistent self →
  __getitem__ self x = (n, self') →
  (number self !! x = None → n = __len__ self ∧ __len__ self' = __len__ self + 1)
  ∧ (is_Some (number self !! x) → self' = self)
  ∧ 0 ≤ n < __len__ self'.
Proof.
  intros [Hsize Hnum]. unfold __getitem__, _addItem, __len__.
  destruct (number self !! x) as [k|] eqn:Hx; intros [= <- <-]; cbn.
  - split; [done|]. split; [done|].
    apply Hnum in Hx as [Hk Hx]. apply lookup_lt_Some in Hx. lia.
  - rewrite map_size_insert_None by done.
    split; [intros _; lia|]. split; [by intros [? ?]|lia].
Qed.


End EnumeratorProperties.

(** * Properties of the file type and of the field tests *)

Section NetIOProperties.

Import Stdlib.Strings.Ascii.

Lemma append_String c s t : String c s +:+ t = String c (s +:+ t).
Proof. reflexivity. Qed.

Lemma append_empty t : EmptyString +:+ t = t.
Proof. reflexivity. Qed.

(** [l[-1]] is the last element, and raises on the empty list only. *)
Lemma list_getitem_last {A} (l : list A) :
  list_getitem l (-1)
  = match last l with Some x => Ok x | None => Raise IndexError end.
Proof.
  unfold list_getitem. cbn zeta.
  change (-1 <? 0) with true. cbn iota.
  destruct l as [|x l] using rev_ind; [done|].
  rewrite last_snoc, length_app. cbn [length].
  assert ((-1 + Z.of_nat (length l + 1) <? 0) = false) as ->
    by (apply Z.ltb_ge; lia).
  assert ((Z.of_nat (length l + 1) <=? -1 + Z.of_nat (length l + 1)) = false)
    as -> by (apply Z.leb_gt; lia).
  cbn [orb].
  replace (Z.to_nat (-1 + Z.of_nat (length l + 1))) with (length l) by lia.
  by rewrite list_lookup_middle.
Qed.

Lemma split_nonempty sep s : split sep s ≠ [].
Proof.
  destruct s as [|c s]; [done|]. cbn.
  destruct (Ascii.eqb c sep); [done|]. by destruct (split sep s).
Qed.

(** Splitting distributes over a separator. *)
Lemma split_app sep s1 s2 :
  split sep (s1 +:+ String sep s2) = split sep s1 ++ split sep s2.
Proof.
  induction s1 as [|c s1 IH].
  - rewrite append_empty. cbn. by rewrite Ascii.eqb_refl.
  - rewrite append_String. cbn [split]. rewrite IH.
    destruct (Ascii.eqb c sep); [done|].
    pose proof (split_nonempty sep s1).
    by destruct (split sep s1).
Qed.

Lemma split_no_sep sep s : char_in sep s = false → split sep s = [s].
Proof.
  induction s as [|c s IH]; [done|]. cbn.
  rewrite Ascii.eqb_sym. destruct (Ascii.eqb c sep); [done|].
  cbn. intros Hs. by rewrite IH.
Qed.

Lemma split_pieces sep s : Forall (λ p, char_in sep p = false) (split sep s).
Proof.
  induction s as [|c s IH]; [by repeat constructor|]. cbn.
  destruct (Ascii.eqb c sep) eqn:Hc; [by constructor|].
  destruct (split sep s) as [|p ps]; [by repeat constructor; cbn;
    rewrite Ascii.eqb_sym, Hc|].
  apply Forall_cons in IH as [Hp Hps]. constructor; [|done].
  cbn. by rewrite Ascii.eqb_sym, Hc.
Qed.

(** X16. [getFiletype] never raises, and the type it returns holds no
    dot. *)
Theorem getFiletype_no_dot fileName :
  ∃ ext, getFiletype fileName = Ok ext ∧ char_in "." ext = false.
Proof.
  unfold getFiletype. rewrite list_getitem_last.
  destruct (last (split "." fileName)) as [ext|] eqn:Hlast.
  - exists ext. split; [done|].
    apply last_Some_elem_of in Hlast.
    by apply (proj1 (Forall_forall _ _) (split_pieces "." fileName)).
  - apply last_None in Hlast. by apply split_nonempty in Hlast.
Qed.

(** X17. The type of a name that ends with a dot and a suffix without
    dots is that suffix, whatever comes before the last dot. *)
Theorem getFiletype_suffix base ext :
  char_in "." ext = false →
  getFiletype (base +:+ String "." ext) = Ok ext.
Proof.
  intros Hext. unfold getFiletype.
  by rewrite list_getitem_last, split_app, (split_no_sep _ ext), last_snoc.
Qed.

(** X18. A name without any dot is its own type. *)
Theorem getFiletype_no_suffix fileName :
  char_in "." fileName = false →
  getFiletype fileName = Ok fileName.
Proof.
  intros Hs. unfold getFiletype.
  by rewrite list_getitem_last, split_no_sep.
Qed.

(** X19. A field that passes [isint] passes [isanum] as well: the test
    for an integer nested under the test for a number in [addProperty]
    misses no field. *)
Theorem isint_isanum str : isint str = true → isanum str = true.
Proof.
  induction str as [|c str IH]; [done|]. cbn [isint isanum].
  destruct (char_in c digits); cbn [negb andb]; [done|].
  destruct (Ascii.eqb c "-"); cbn [negb andb]; [|done].
  by rewrite andb_false_r.
Qed.

End NetIOProperties.

(** * Properties of the path lengths *)

Section PathLengthsProperties.

#[local] Set Warnings "-clear-no-such-hyp".

Context {K : Type} `{Countable K}.

Variable next : K → list K.
Variable start : K.

Lemma distance_unique m m' (v : K) :
  distance next start m v → distance next start m' v → m = m'.
Proof.
  intros [Hw Hmin] [Hw' Hmin'].
  destruct (Nat.lt_trichotomy m m') as [Hlt|[?|Hlt]]; [|done|].
  - by destruct (Hmin' _ Hlt).
  - by destruct (Hmin _ Hlt).
Qed.

(** A node at distance [S n] has a neighbour at distance [n]. *)
Lemma distance_pred n (v : K) :
  distance next start (S n) v →
  ∃ u, distance next start n u ∧ v ∈ next u.
Proof.
  intros [Hw Hmin]. inversion Hw as [|n' u v' Hu Hv]; subst.
  exists u. split; [|done]. split; [done|].
  intros m Hm Hwm. apply (Hmin (S m)); [lia|]. by eapply walk_S.
Qed.

Lemma no_distance_beyond n :
  (∀ v : K, ¬ distance next start n v) →
  ∀ m v, (n ≤ m)%nat → ¬ distance next start m v.
Proof.
  intros Hn m v Hm. revert v. induction Hm as [|m Hm IH]; [done|].
  intros v Hv. destruct (distance_pred _ _ Hv) as (u & Hu & _).
  by apply (IH u).
Qed.

(** The innermost loop. *)
Lemma visit_foldl (interior : gset K) i ws : ∀ E P,
  (∀ v, v ∈ (foldl (visit interior i) (E, P) ws).1
        ↔ v ∈ E ∨ (v ∈ ws ∧ v ∉ interior))
  ∧ ∀ P0 : gmap K Z,
      (∀ v, P !! v = if decide (v ∈ E) then Some i else P0 !! v) →
      ∀ v, (foldl (visit interior i) (E, P) ws).2 !! v
           = if decide (v ∈ (foldl (visit interior i) (E, P) ws).1)
             then Some i else P0 !! v.
Proof.
  induction ws as [|w ws IH]; intros E P; cbn [foldl].
  { split; [|done]. intros v. cbn. set_solver. }
  assert (visit interior i (E, P) w
          = if decide (w ∈ interior) then (E, P)
            else ({[w]} ∪ E, <[w := i]> P)) as -> by done.
  destruct (decide (w ∈ interior)) as [Hw|Hw].
  - destruct (IH E P) as [IH1 IH2]. split; [|done].
    intros v. rewrite IH1. set_solver.
  - destruct (IH ({[w]} ∪ E) (<[w := i]> P)) as [IH1 IH2]. split.
    + intros v. rewrite IH1. set_solver.
    + intros P0 HP. apply IH2. intros v. rewrite lookup_insert.
      case_decide as Hwv.
      * subst v. rewrite decide_True by set_solver. done.
      * rewrite HP. destruct (decide (v ∈ E)).
        { by rewrite decide_True by set_solver. }
        { by rewrite decide_False by set_solver. }
Qed.

(** The two loops of a round. *)
Lemma sweep_foldl (interior : gset K) i us : ∀ E P,
  let r := foldl (λ acc node, foldl (visit interior i) acc (next node))
             (E, P) us in
  (∀ v, v ∈ r.1 ↔ v ∈ E ∨ ((∃ u, u ∈ us ∧ v ∈ next u) ∧ v ∉ interior))
  ∧ ∀ P0 : gmap K Z,
      (∀ v, P !! v = if decide (v ∈ E) then Some i else P0 !! v) →
      ∀ v, r.2 !! v = if decide (v ∈ r.1) then Some i else P0 !! v.
Proof.
  induction us as [|u us IH]; intros E P; cbn [foldl].
  { split; [|done]. intros v. cbn. set_solver. }
  destruct (foldl (visit interior i) (E, P) (next u)) as [E1 P1] eqn:Hin.
  destruct (visit_foldl interior i (next u) E P) as [V1 V2].
  rewrite Hin in V1, V2. cbn [fst snd] in V1, V2.
  destruct (IH E1 P1) as [IH1 IH2]. cbn zeta. split.
  - intros v. rewrite IH1, V1. set_solver.
  - intros P0 HP. apply IH2. by apply V2.
Qed.

Lemma sweep_spec (interior edge : gset K) i (P : gmap K Z) E' P' :
  sweep next interior i edge P = (E', P') →
  (∀ v, v ∈ E' ↔ (∃ u, u ∈ edge ∧ v ∈ next u) ∧ v ∉ interior)
  ∧ ∀ v, P' !! v = if decide (v ∈ E') then Some i else P !! v.
Proof.
  unfold sweep. intros Hsweep.
  destruct (sweep_foldl interior i (elements edge) ∅ P) as [S1 S2].
  cbn zeta in S1, S2. rewrite Hsweep in S1, S2. cbn [fst snd] in S1, S2.
  split.
  - intros v. rewrite S1. setoid_rewrite elem_of_elements. set_solver.
  - apply S2. intros v. by rewrite decide_False by set_solver.
Qed.

Lemma rounds_done_init :
  rounds_done next start 0 {[start]} ∅ ∅.
Proof.
  split; [|split; [|split]].
  - intros v. split; [set_solver|]. intros (m & Hm & _). lia.
  - intros v. rewrite elem_of_singleton. split.
    + intros ->. split; [constructor|]. intros m Hm. lia.
    + intros [Hw _]. by inversion Hw.
  - intros v k. rewrite lookup_empty. split; [done|].
    intros (m & _ & Hm & _). lia.
  - set_solver.
Qed.

(** One round takes the state after [n] rounds to the state after [S n]
    rounds. *)
Lemma rounds_done_step n (edge interior : gset K) (P : gmap K Z) E' P' :
  rounds_done next start n edge interior P →
  sweep next (edge ∪ interior) (Z.of_nat n + 1) edge P = (E', P') →
  rounds_done next start (S n) E' (edge ∪ interior) P'.
Proof.
  intros (I1 & I2 & I3 & I4) Hsweep.
  destruct (sweep_spec _ _ _ _ _ _ Hsweep) as [HE HP].
  assert (∀ v, v ∈ edge ∪ interior
               ↔ ∃ m, (m < S n)%nat ∧ walk next start m v) as I1'.
  { intros v. rewrite elem_of_union, I1, I2. split.
    - intros [[Hw _]|(m & Hm & Hw)]; [exists n|exists m]; split; auto with lia.
    - intros (m & Hm & Hw).
      destruct (decide (v ∈ interior)) as [Hin|Hout].
      { right. by apply I1. }
      destruct (decide (m = n)) as [->|Hne].
      + left. split; [done|]. intros m' Hm' Hw'. apply Hout, I1. eauto.
      + right. exists m. split; [lia|done]. }
  assert (∀ v, v ∈ E' ↔ distance next start (S n) v) as I2'.
  { intros v. rewrite HE. split.
    - intros [(u & Hu & Hv) Hout]. apply I2 in Hu as [Hu _]. split.
      + by eapply walk_S.
      + intros m Hm Hw. apply Hout, I1'. eauto.
    - intros Hd. destruct (distance_pred _ _ Hd) as (u & Hu & Hv).
      split; [exists u; split; [by apply I2|done]|].
      intros Hin. apply I1' in Hin as (m & Hm & Hw).
      destruct Hd as [_ Hmin]. by apply (Hmin m). }
  split; [done|]. split; [done|]. split.
  - intros v k. rewrite HP. destruct (decide (v ∈ E')) as [Hin|Hout].
    + apply I2' in Hin. split.
      * intros [= <-]. exists (S n). split; [lia|]. split; [lia|done].
      * intros (m & -> & _ & Hd). f_equal.
        rewrite (distance_unique _ _ _ Hd Hin). lia.
    + rewrite I3. split.
      * intros (m & -> & Hm & Hd). exists m. split; [done|].
        split; [lia|done].
      * intros (m & -> & Hm & Hd). exists m. split; [done|]. split; [|done].
        destruct (decide (m = S n)) as [->|?]; [|lia].
        by apply I2' in Hd.
  - intros v Hv. rewrite HP. destruct (decide (v ∈ E')); [eauto|].
    apply elem_of_union in Hv as [Hv|Hv]; [|by apply I4].
    apply I2 in Hv. destruct n as [|n].
    + left. destruct Hv as [Hw _]. by inversion Hw.
    + right. exists (Z.of_nat (S n)). apply I3. exists (S n).
      split; [done|]. split; [lia|done].
Qed.

Section Finite.

(** A finite set of nodes that holds [start] and is closed under [next]. *)
Variable V : gset K.
Hypothesis start_in : start ∈ V.
Hypothesis closed : ∀ v w, v ∈ V → w ∈ next v → w ∈ V.

Lemma walk_in n v : walk next start n v → v ∈ V.
Proof. induction 1; eauto. Qed.

(** With more fuel than there are nodes outside [interior], the loop
    returns; what it returns maps a node to its distance from [start]
    when that is at least [1], and its keys are the nodes other than
    [start] that a walk from [start] reaches. *)
Lemma path_loop_distance fuel : ∀ n (edge interior : gset K) (P : gmap K Z),
  rounds_done next start n edge interior P →
  (size (V ∖ interior) < fuel)%nat →
  ∃ r, path_loop fuel next edge interior P (Z.of_nat n) = Some r
       ∧ (∀ v k, r !! v = Some k
                 ↔ ∃ m, k = Z.of_nat m ∧ (1 ≤ m)%nat
                        ∧ distance next start m v)
       ∧ (∀ v, is_Some (r !! v)
               ↔ v ≠ start ∧ ∃ m, walk next start m v).
Proof.
  induction fuel as [|fuel IH]; intros n edge interior P Hinv Hfuel; [lia|].
  cbn [path_loop]. destruct Hinv as (I1 & I2 & I3 & I4).
  case_bool_decide as Hedge.
  - destruct (sweep next (edge ∪ interior) (Z.of_nat n + 1) edge P)
      as [E' P'] eqn:Hsweep.
    pose proof (rounds_done_step n edge interior P E' P'
                  (conj I1 (conj I2 (conj I3 I4))) Hsweep) as Hinv'.
    cbv beta iota zeta.
    replace (Z.of_nat n + 1) with (Z.of_nat (S n)) by lia.
    apply IH; [done|].
    destruct (size_pos_elem_of edge) as [x Hx]; [lia|].
    assert (x ∈ V) by (apply I2 in Hx as [Hx _]; by eapply walk_in).
    assert (x ∉ interior).
    { intros Hin. apply I1 in Hin as (m & Hm & Hw).
      apply I2 in Hx as [_ Hmin]. by apply (Hmin m). }
    assert (V ∖ (edge ∪ interior) ⊂ V ∖ interior) as Hsub by set_solver.
    apply subset_size in Hsub. lia.
  - exists P. split; [done|].
    assert (edge = ∅) as -> by (apply leibniz_equiv, size_empty_inv; lia).
    assert (∀ v, ¬ distance next start n v) as Hnone.
    { intros w Hw. apply I2 in Hw. set_solver. }
    assert (∀ v k, P !! v = Some k
                   ↔ ∃ m, k = Z.of_nat m ∧ (1 ≤ m)%nat
                          ∧ distance next start m v) as Hdist.
    { intros v k. rewrite I3. split.
      - intros (m & -> & Hm & Hd). exists m. split; [done|].
        split; [lia|done].
      - intros (m & -> & Hm & Hd). exists m. split; [done|]. split; [|done].
        destruct (decide (n ≤ m)%nat) as [Hle|?]; [|lia].
        by destruct (no_distance_beyond n Hnone m v Hle). }
    split; [done|].
    assert (∀ m v, walk next start m v → v ∈ interior) as Hreach.
    { intros m v Hw. induction Hw as [|m u v Hu IHu Hv].
      - apply I1. destruct n as [|n].
        + destruct (Hnone start). split; [constructor|]. intros m Hm. lia.
        + exists 0%nat. split; [lia|constructor].
      - destruct (decide (v ∈ interior)) as [|Hout]; [done|].
        apply I1 in IHu as (m' & Hm' & Hw').
        destruct (Hnone v). split.
        + destruct (decide (S m' = n)) as [<-|Hne]; [by eapply walk_S|].
          destruct Hout. apply I1. exists (S m').
          split; [lia|by eapply walk_S].
        + intros m'' Hm'' Hw''. apply Hout, I1. eauto. }
    intros v. split.
    + intros [k Hk]. apply Hdist in Hk as (m & -> & Hm & [Hw Hmin]).
      split; [|eauto]. intros ->. apply (Hmin 0%nat); [lia|constructor].
    + intros [Hv (m & Hw)]. apply Hreach in Hw.
      by destruct (I4 v Hw).
Qed.

End Finite.

End PathLengthsProperties.

Section GetPathLengths.

Context {K : Type} `{Countable K}.

Lemma getPathLengths_loop fuel (net : Net) (start : K) undirected :
  getPathLengths fuel net start undirected
  = path_loop fuel (next_of net undirected) {[start]} ∅ ∅ 0.
Proof. by destruct undirected. Qed.

(** X20. On a network whose nodes reachable from [start] lie in a finite
    set [V], [getPathLengths] returns with any fuel above the size of
    [V], and the value it holds for a node is the least number of steps
    from [start] to it: [r[v] = k] exactly when [k >= 1] and [k] is the
    distance of [v] from [start]. *)
Theorem getPathLengths_distance fuel (net : Net) (start : K) undirected
    (V : gset K) :
  start ∈ V →
  (∀ v w, v ∈ V → w ∈ next_of net undirected v → w ∈ V) →
  (size V < fuel)%nat →
  ∃ r, getPathLengths fuel net start undirected = Some r
       ∧ ∀ v k, r !! v = Some k
                ↔ ∃ m, k = Z.of_nat m ∧ (1 ≤ m)%nat
                       ∧ distance (next_of net undirected) start m v.
Proof.
  intros Hstart Hclosed Hfuel. rewrite getPathLengths_loop.
  destruct (path_loop_distance (next_of net undirected) start V Hstart
              Hclosed fuel 0 {[start]} ∅ ∅) as (r & Hr & Hdist & _).
  - apply rounds_done_init.
  - rewrite difference_empty_L. lia.
  - exists r. by split.
Qed.

(** X21. Under the same conditions, the keys of the dictionary returned
    are the nodes that a walk from [start] reaches, [start] itself
    excepted: [start] never gets a length, not even when a walk leads
    back to it. *)
Theorem getPathLengths_keys fuel (net : Net) (start : K) undirected
    (V : gset K) :
  start ∈ V →
  (∀ v w, v ∈ V → w ∈ next_of net undirected v → w ∈ V) →
  (size V < fuel)%nat →
  ∃ r, getPathLengths fuel net start undirected = Some r
       ∧ ∀ v, is_Some (r !! v)
              ↔ v ≠ start ∧ ∃ m, walk (next_of net undirected) start m v.
Proof.
  intros Hstart Hclosed Hfuel. rewrite getPathLengths_loop.
  destruct (path_loop_distance (next_of net undirected) start V Hstart
              Hclosed fuel 0 {[start]} ∅ ∅) as (r & Hr & _ & Hkeys).
  - apply rounds_done_init.
  - rewrite difference_empty_L. lia.
  - exists r. by split.
Qed.

End GetPathLengths.

(** * Properties of the first pass of [loadNet_mat] *)

Section LoadNetMatProperties.

Variable fields_of : string → list string.

(** After the first line, the loop goes on as long as the lines have
    [columns] fields. *)
Lemma loadNet_mat_rows_later input : ∀ rows columns,
  1 ≤ rows →
  (∀ rows' columns',
     loadNet_mat_rows fields_of input rows columns = inr (rows', columns')
     ↔ rows' = rows + Z.of_nat (length input) ∧ columns' = columns
       ∧ Forall (λ line, Z.of_nat (length (fields_of line)) = columns) input)
  ∧ (∀ e,
       loadNet_mat_rows fields_of input rows columns = inl e
       ↔ ∃ pre line post,
           input = pre ++ line :: post
           ∧ e = UnconsistentColumns (rows + Z.of_nat (length pre) + 1)
           ∧ Z.of_nat (length (fields_of line)) ≠ columns
           ∧ Forall (λ line, Z.of_nat (length (fields_of line)) = columns)
               pre).
Proof.
  induction input as [|line input IH]; intros rows columns Hrows.
  { cbn. split.
    - intros rows' columns'. split.
      + intros [= <- <-]. split; [lia|done].
      + intros (-> & -> & _). do 2 f_equal. lia.
    - intros e. split; [done|]. by intros ([|??] & ? & ? & ? & _). }
  cbn [loadNet_mat_rows].
  destruct (Z.eqb_spec (rows + 1) 1) as [?|_]; [lia|].
  destruct (IH (rows + 1) columns) as [IHok IHerr]; [lia|].
  destruct (Z.eqb_spec (Z.of_nat (length (fields_of line))) columns)
    as [Hw|Hw]; cbn [negb andb].
  - rewrite Hw. split.
    + intros rows' columns'. rewrite IHok, Forall_cons, length_cons.
      split; intros (-> & -> & ?); (split; [lia|]); tauto.
    + intros e. rewrite IHerr. split.
      * intros (pre & l & post & -> & -> & Hl & Hpre).
        exists (line :: pre), l, post. split; [done|].
        split; [f_equal; rewrite length_cons; lia|].
        split; [done|]. by constructor.
      * intros ([|l0 pre] & l & post & Heq & -> & Hl & Hpre);
          simplify_eq/=; try done.
        apply Forall_cons in Hpre as [_ Hpre].
        exists pre, l, post. split; [done|]. split; [f_equal; lia|done].
  - split.
    + intros rows' columns'. split; [done|].
      intros (_ & _ & Hall). by apply Forall_cons in Hall as [? _].
    + intros e. split.
      * intros [= <-]. exists [], line, input. split; [done|].
        split; [f_equal; cbn; lia|]. by split.
      * intros ([|l0 pre] & l & post & Heq & -> & Hl & Hpre);
          simplify_eq/=; [f_equal; f_equal; lia|].
        by apply Forall_cons in Hpre as [? _].
Qed.

(** X22. The first pass of [loadNet_mat] accepts square input and nothing
    else: it returns [n] exactly when there are [n] lines and every line
    has [n] fields (no line at all is accepted, with [n = 0]). *)
Theorem loadNet_mat_shape_square input n :
  loadNet_mat_shape fields_of input = inr n
  ↔ n = Z.of_nat (length input)
    ∧ Forall (λ line, Z.of_nat (length (fields_of line)) = n) input.
Proof.
  unfold loadNet_mat_shape. destruct input as [|line input].
  { cbn. split; [by intros [= <-]|]. by intros [-> _]. }
  cbn [loadNet_mat_rows]. change (0 + 1 =? 1) with true. cbn [negb andb].
  destruct (loadNet_mat_rows_later input (0 + 1)
              (Z.of_nat (length (fields_of line)))) as [Hok Herr]; [lia|].
  rewrite Forall_cons, length_cons.
  destruct (loadNet_mat_rows fields_of input (0 + 1) _)
    as [e|[rows columns]] eqn:Hrows.
  - split; [done|]. intros (-> & Hline & Hall).
    enough (@inl mat_exception (Z * Z) e
            = inr (0 + 1 + Z.of_nat (length input),
                   Z.of_nat (length (fields_of line)))) by done.
    apply Hok. split; [done|]. split; [done|]. by rewrite Hline.
  - destruct (proj1 (Hok rows columns) eq_refl) as (-> & -> & Hall).
    destruct (Z.eqb_spec (Z.of_nat (length (fields_of line)))
                (0 + 1 + Z.of_nat (length input))) as [Heq|Hne];
      cbn [negb].
    + split.
      * intros [= <-]. split; [lia|]. by split.
      * intros (-> & _). f_equal. lia.
    + split; [done|]. intros (-> & Hline & _). lia.
Qed.

(** X23. The row the first pass reports as inconsistent is the first line
    whose number of fields differs from that of the line above it, counted
    from [1]: every line before it has as many fields as the first
    line. *)
Theorem loadNet_mat_shape_row input row :
  loadNet_mat_shape fields_of input = inl (UnconsistentColumns row)
  ↔ ∃ first pre line post,
      input = first :: pre ++ line :: post
      ∧ row = Z.of_nat (length pre) + 2
      ∧ length (fields_of line) ≠ length (fields_of first)
      ∧ Forall (λ l, length (fields_of l) = length (fields_of first)) pre.
Proof.
  unfold loadNet_mat_shape. destruct input as [|first input].
  { cbn. split; [done|]. by intros (? & ? & ? & ? & ? & _). }
  cbn [loadNet_mat_rows]. change (0 + 1 =? 1) with true. cbn [negb andb].
  destruct (loadNet_mat_rows_later input (0 + 1)
              (Z.of_nat (length (fields_of first)))) as [Hok Herr]; [lia|].
  destruct (loadNet_mat_rows fields_of input (0 + 1) _)
    as [e|[rows columns]] eqn:Hrows.
  - destruct (proj1 (Herr e) eq_refl)
      as (pre & line & post & -> & -> & Hline & Hpre).
    split.
    + intros [= <-]. exists first, pre, line, post. split; [done|].
      split; [lia|]. split; [lia|].
      eapply Forall_impl; [exact Hpre|]. cbn. lia.
    + intros (first' & pre' & line' & post' & Heq & -> & Hline' & Hpre').
      injection Heq as <- Heq. do 2 f_equal.
      assert (length pre = length pre'); [|lia].
      clear -Heq Hline Hpre Hline' Hpre'. revert pre' Heq Hpre'.
      induction pre as [|l pre IH]; intros [|l' pre'] Heq Hpre';
        simplify_eq/=; try done.
      * apply Forall_cons in Hpre' as [? _]. lia.
      * apply Forall_cons in Hpre as [? _]. lia.
      * apply Forall_cons in Hpre as [_ Hpre].
        apply Forall_cons in Hpre' as [_ Hpre']. f_equal. by eapply IH.
  - destruct (proj1 (Hok rows columns) eq_refl) as (-> & -> & Hall).
    destruct (negb _).
    + split; [done|].
      intros (first' & pre & line & post & Heq & _ & Hline & _).
      injection Heq as <- ->. apply Forall_app in Hall as [_ Hall].
      apply Forall_cons in Hall as [? _]. lia.
    + split; [done|].
      intros (first' & pre & line & post & Heq & _ & Hline & _).
      injection Heq as <- ->. apply Forall_app in Hall as [_ Hall].
      apply Forall_cons in Hall as [? _]. lia.
Qed.

End LoadNetMatProperties.

(** * Further worked examples *)

Section FurtherExamples.

#[local] Set Warnings "-clear-no-such-hyp".

Local Open Scope string_scope.

Lemma reversed_too_short_witness :
  (length [((1%Z, "B", "C") : @event string)] < length chain)%nat
  ∧ ∃ e, eventBetweenness chain (Some [(1, "B", "C")]) None false = Raise e.
Proof.
  split; [cbn; lia|].
  apply (reversed_too_short chain [(1, "B", "C")] None false). cbn. lia.
Defined.

Lemma chain_mentions k : mentions chain k → mentions chain k.
Proof. done. Qed.

Lemma reversed_long_enough_witness :
  (length chain ≤ length chain)%nat
  ∧ (∀ k, mentions chain k → mentions chain k)
  ∧ ∃ out nb',
      eventBetweenness chain (Some chain) None false = Ok (out, nb')
      ∧ out.*1 = time <$> chain.
Proof.
  split; [lia|]. split; [exact chain_mentions|].
  apply (reversed_long_enough chain chain None false);
    [lia|exact chain_mentions].
Defined.

Lemma yields_independent_witness :
  eventBetweenness chain None None false = Ok ([(0, 1); (1, 1)]%Z, None)
  ∧ ∃ nb2',
      eventBetweenness chain None (Some ∅) true
      = Ok ([(0, 1); (1, 1)]%Z, nb2').
Proof.
  split; [reflexivity|].
  apply (yields_independent chain None None false _ None (Some ∅) true).
  reflexivity.
Defined.

Lemma nodeBetweenness_keys_witness :
  mirrored chain None
  ∧ ∃ out m,
      eventBetweenness chain None (Some ∅) false = Ok (out, Some m)
      ∧ ∀ k, is_Some (m !! k) ↔ is_Some ((∅ : gmap string Z) !! k)
                                  ∨ mentions chain k.
Proof.
  split; [by left|]. apply (nodeBetweenness_keys chain None ∅ false).
  by left.
Defined.

Lemma nodeBetweenness_accumulates_witness :
  mirrored chain None
  ∧ ∃ out m m0,
      eventBetweenness chain None (Some {["B" := 5%Z]}) false
      = Ok (out, Some m)
      ∧ eventBetweenness chain None (Some ∅) false = Ok (out, Some m0)
      ∧ ∀ k, count_of m k
             = (count_of ({["B" := 5%Z]} : gmap string Z) k
                + count_of m0 k)%Z.
Proof.
  split; [by left|].
  apply (nodeBetweenness_accumulates chain None {["B" := 5%Z]} false).
  by left.
Defined.

Lemma resources_after_witness :
  mirrored chain None
  ∧ ∃ fs st,
      run_upto 1 chain None None false = Ok (fs, st)
      ∧ length (L_diff st) = (length chain - 1)%nat
      ∧ (∀ k, is_Some (A_count st !! k) ↔ mentions (take 1 chain) k)
      ∧ (∀ k, is_Some (L_count st !! k) ↔ mentions chain k).
Proof.
  split; [by left|]. apply (resources_after 1 chain None None false).
  by left.
Defined.

Lemma exhausted_state_witness :
  valid_events chain ∧ mirrored chain None
  ∧ ∃ fs st,
      run chain None None false = Ok (fs, st)
      ∧ L_diff st = []
      ∧ (∀ k v, L_count st !! k = Some v → v = 0%Z)
      ∧ A_count st = (phase1 chain).1.
Proof.
  split; [exact chain_valid|]. split; [by left|].
  apply (exhausted_state chain None None false);
    [exact chain_valid|by left].
Defined.

Lemma yielded_closed_form_witness :
  distinct_endpoints [((0, "A", "B") : @event string)] ∧ "B" ≠ "C"
  ∧ ∃ out nb',
      eventBetweenness
        ([(0, "A", "B")] ++ (1, "B", "C") :: [(2, "C", "D")])%list
        None None false = Ok (out, nb')
      ∧ out !! length [((0, "A", "B") : @event string)]
        = Some (1, betweenness_from (phase1 [(0, "A", "B")]).1
                     (phase1 (reverse [(2, "C", "D")])).1 "B" "C")%Z.
Proof.
  assert (distinct_endpoints [((0, "A", "B") : @event string)]) as Hd
    by (repeat constructor; discriminate).
  split; [exact Hd|]. split; [discriminate|].
  apply (yielded_closed_form [(0, "A", "B")] [(2, "C", "D")] 1 "B" "C"
           None false); [exact Hd|discriminate].
Defined.

Lemma time_reversal_witness :
  distinct_endpoints chain
  ∧ ∃ out nb1 nb2,
      eventBetweenness chain None None false = Ok (out, nb1)
      ∧ eventBetweenness (reverse chain) None None false
        = Ok (reverse out, nb2).
Proof.
  split; [exact (proj2 chain_valid)|].
  apply (time_reversal chain None false). exact (proj2 chain_valid).
Defined.

(** The enumerator after ['foo'] has been looked up. *)
Lemma foo_consistent :
  Enumerator.consistent (Enumerator.Make {["foo" := 0%Z]} ["foo"]).
Proof.
  change (Enumerator.Make {["foo" := 0%Z]} ["foo"])
    with (Enumerator.__getitem__ Enumerator.__init__ "foo").2.
  apply getitem_consistent, consistent_init.
Qed.

Lemma enumerator_round_trip_witness :
  Enumerator.consistent (Enumerator.Make {["foo" := 0%Z]} ["foo"])
  ∧ Enumerator.__getitem__ (Enumerator.Make {["foo" := 0%Z]} ["foo"]) "bar"
    = (1%Z, Enumerator.Make (<["bar" := 1%Z]> {["foo" := 0%Z]})
              ["foo"; "bar"])
  ∧ Enumerator.getReverse
      (Enumerator.Make (<["bar" := 1%Z]> {["foo" := 0%Z]}) ["foo"; "bar"])
      1 = Ok "bar".
Proof.
  split; [exact foo_consistent|]. split; [reflexivity|].
  apply (enumerator_round_trip
           (Enumerator.Make {["foo" := 0%Z]} ["foo"]) "bar" 1);
    [exact foo_consistent|reflexivity].
Defined.

Lemma enumerator_stable_witness :
  Enumerator.__getitem__ (Enumerator.Make {["foo" := 0%Z]} ["foo"]) "bar"
  = (1%Z, Enumerator.Make (<["bar" := 1%Z]> {["foo" := 0%Z]})
            ["foo"; "bar"])
  ∧ Enumerator.__getitem__
      (Enumerator.Make (<["bar" := 1%Z]> {["foo" := 0%Z]}) ["foo"; "bar"])
      "bar"
    = (1%Z, Enumerator.Make (<["bar" := 1%Z]> {["foo" := 0%Z]})
              ["foo"; "bar"])
  ∧ ∀ y m,
      Enumerator.number (Enumerator.Make {["foo" := 0%Z]} ["foo"]) !! y
      = Some m →
      Enumerator.number
        (Enumerator.Make (<["bar" := 1%Z]> {["foo" := 0%Z]}) ["foo"; "bar"])
      !! y = Some m.
Proof.
  split; [reflexivity|].
  apply (enumerator_stable
           (Enumerator.Make {["foo" := 0%Z]} ["foo"]) "bar" 1).
  reflexivity.
Defined.

Lemma enumerator_injective_witness :
  Enumerator.consistent (Enumerator.Make {["foo" := 0%Z]} ["foo"])
  ∧ Enumerator.__getitem__ (Enumerator.Make {["foo" := 0%Z]} ["foo"]) "foo"
    = (0%Z, Enumerator.Make {["foo" := 0%Z]} ["foo"])
  ∧ "foo" = "foo".
Proof.
  split; [exact foo_consistent|]. split; [reflexivity|].
  apply (enumerator_injective
           (Enumerator.Make {["foo" := 0%Z]} ["foo"]) "foo" "foo" 0
           (Enumerator.Make {["foo" := 0%Z]} ["foo"])
           (Enumerator.Make {["foo" := 0%Z]} ["foo"]));
    [exact foo_consistent|reflexivity|reflexivity].
Defined.

Lemma enumerator_numbering_witness :
  let self := Enumerator.Make {["foo" := 0%Z]} ["foo"] in
  let self' :=
    Enumerator.Make (<["bar" := 1%Z]> {["foo" := 0%Z]}) ["foo"; "bar"] in
  Enumerator.consistent self
  ∧ Enumerator.__getitem__ self "bar" = (1%Z, self')
  ∧ (Enumerator.number self !! "bar" = None →
     1%Z = Enumerator.__len__ self
     ∧ Enumerator.__len__ self' = (Enumerator.__len__ self + 1)%Z)
  ∧ (is_Some (Enumerator.number self !! "bar") → self' = self)
  ∧ (0 ≤ 1 < Enumerator.__len__ self')%Z.
Proof.
  intros self self'. split; [exact foo_consistent|]. split; [reflexivity|].
  apply (enumerator_numbering self "bar" 1 self');
    [exact foo_consistent|reflexivity].
Defined.


Import Stdlib.Strings.Ascii.

Lemma getFiletype_suffix_witness :
  char_in "."%char "mat" = false
  ∧ getFiletype ("mynet.old" +:+ String "."%char "mat") = Ok "mat".
Proof.
  split; [reflexivity|]. apply (getFiletype_suffix "mynet.old" "mat").
  reflexivity.
Defined.

Lemma getFiletype_no_suffix_witness :
  char_in "."%char "README" = false ∧ getFiletype "README" = Ok "README".
Proof.
  split; [reflexivity|]. apply (getFiletype_no_suffix "README").
  reflexivity.
Defined.

Lemma isint_isanum_witness :
  isint "-12" = true ∧ isanum "-12" = true.
Proof.
  split; [reflexivity|]. apply (isint_isanum "-12"). reflexivity.
Defined.

Lemma line_net_closed undirected v w :
  v ∈ ({[0; 1; 2]} : gset nat)%nat →
  w ∈ next_of line_net undirected v →
  w ∈ ({[0; 1; 2]} : gset nat)%nat.
Proof.
  intros Hv Hw. set_unfold.
  destruct Hv as [[-> | ->] | ->]; destruct undirected; cbn in Hw;
    set_solver.
Qed.

Lemma getPathLengths_distance_witness :
  (0%nat ∈ ({[0; 1; 2]} : gset nat)%nat)
  ∧ (∀ v w, v ∈ ({[0; 1; 2]} : gset nat)%nat →
            w ∈ next_of line_net true v → w ∈ ({[0; 1; 2]} : gset nat)%nat)
  ∧ (size ({[0; 1; 2]} : gset nat)%nat < 4)%nat
  ∧ ∃ r, getPathLengths 4 line_net 0%nat true = Some r
         ∧ ∀ v k, r !! v = Some k
                  ↔ ∃ m, k = Z.of_nat m ∧ (1 ≤ m)%nat
                         ∧ distance (next_of line_net true) 0%nat m v.
Proof.
  assert (0%nat ∈ ({[0; 1; 2]} : gset nat)%nat) as H0 by set_solver.
  assert (size ({[0; 1; 2]} : gset nat)%nat < 4)%nat as Hsize
    by (vm_compute; lia).
  split; [exact H0|]. split; [exact (line_net_closed true)|].
  split; [exact Hsize|].
  apply (getPathLengths_distance 4 line_net 0%nat true {[0; 1; 2]}%nat);
    [exact H0|exact (line_net_closed true)|exact Hsize].
Defined.

Lemma getPathLengths_keys_witness :
  (0%nat ∈ ({[0; 1; 2]} : gset nat)%nat)
  ∧ (∀ v w, v ∈ ({[0; 1; 2]} : gset nat)%nat →
            w ∈ next_of line_net false v → w ∈ ({[0; 1; 2]} : gset nat)%nat)
  ∧ (size ({[0; 1; 2]} : gset nat)%nat < 4)%nat
  ∧ ∃ r, getPathLengths 4 line_net 0%nat false = Some r
         ∧ ∀ v, is_Some (r !! v)
                ↔ v ≠ 0%nat
                  ∧ ∃ m, walk (next_of line_net false) 0%nat m v.
Proof.
  assert (0%nat ∈ ({[0; 1; 2]} : gset nat)%nat) as H0 by set_solver.
  assert (size ({[0; 1; 2]} : gset nat)%nat < 4)%nat as Hsize
    by (vm_compute; lia).
  split; [exact H0|]. split; [exact (line_net_closed false)|].
  split; [exact Hsize|].
  apply (getPathLengths_keys 4 line_net 0%nat false {[0; 1; 2]}%nat);
    [exact H0|exact (line_net_closed false)|exact Hsize].
Defined.

(** The lengths computed on the line, in both readings of the network. *)
Example line_net_lengths :
  getPathLengths 4 line_net 0%nat true = Some {[1%nat := 1%Z; 2%nat := 2%Z]}
  ∧ getPathLengths 4 line_net 2%nat false = Some ∅
  ∧ getPathLengths 3 line_net 0%nat true = None.
Proof. repeat split; by vm_compute. Qed.

End FurtherExamples.
